(** * TUIO to PureData converter: the slot allocation engine of [tuio2.py]

    A shallow embedding of the class [TuioToPdConverter] and the properties
    of its slot table, identifier binding and publish gate.

    Conventions of the embedding.
    - A Python number is an [int] or a [float]; the slot table is created
      with [int] entries [(-1, -1, 0, 0, 0)] and refreshed with [float]
      entries, and the test [points[i][0] == -1] is Python's numeric
      equality on both.  Floats are IEEE doubles ([PrimFloat]).
    - [id_to_point] is a [dict] from session identifiers to indices, a
      [gmap Z nat]; [active_ids] is a [set], a [gset Z].
    - An uncaught Python exception ([IndexError] of a list access) is the
      result [None]; every method returns [option] of the new object state.
      What a method had already mutated when it raised is not kept, with
      one exception: a frame boundary whose send raises, the one exception a
      converter built by the class can meet ([run_wf]), is followed through
      the state it leaves ([after_boundary]).
    - Readings of [time.time()] are inputs of the handler; they and
      [send_interval] are exact rationals, in seconds.
    - The UDP client is the list of the messages it has sent. Its
      [send_message] raises on an argument it cannot write (a double beyond
      the float32 range); the socket itself is taken to accept every
      datagram. *)

From Stdlib Require Import ZArith QArith Lqa.
From Stdlib Require Import Floats.PrimFloat.
From stdpp Require Import gmap list strings.

(** ** Python values *)

Inductive num : Type :=
  | PyInt (n : Z)
  | PyFloat (f : float).

(** [v == -1] *)
Definition eq_minus_one (v : num) : bool :=
  match v with
  | PyInt n => Z.eqb n (-1)
  | PyFloat f => PrimFloat.eqb f (-1)%float
  end.

(** A slot record, the tuple [(x, y, vx, vy, accel)]. *)
Definition point : Type := (num * num * num * num * num)%type.

(** [p[0]] *)
Definition item0 (p : point) : num :=
  let '(x, _, _, _, _) := p in x.

(** The record written by [__init__] and by [process_alive]. *)
Definition sentinel : point :=
  (PyInt (-1), PyInt (-1), PyInt 0, PyInt 0, PyInt 0).

(** The tuple built from the five floats of a [set] message. *)
Definition record (x y x_vel y_vel accel : float) : point :=
  (PyFloat x, PyFloat y, PyFloat x_vel, PyFloat y_vel, PyFloat accel).

(** A slot is free when its first component equals [-1]. *)
Definition is_free (p : point) : bool := eq_minus_one (item0 p).

(** [l[i] = v]; an index past the end raises [IndexError]. *)
Definition setitem {A : Type} (l : list A) (i : nat) (v : A) : option (list A) :=
  if decide (i < length l) then Some (<[i:=v]> l) else None.

(** ** The converter object *)

(** An OSC message [/point i x y vx vy accel] given to the client. *)
Definition pd_message : Type := (nat * point)%type.

Record TuioToPdConverter : Type := mkConverter {
  num_points : nat;
  id_to_point : gmap Z nat;
  points : list point;
  active_ids : gset Z;
  last_send_time : Q;
  send_interval : Q;
  pd_client : list pd_message
}.

Definition with_points (pts : list point) (self : TuioToPdConverter) :=
  mkConverter (num_points self) (id_to_point self) pts (active_ids self)
    (last_send_time self) (send_interval self) (pd_client self).

Definition with_id_to_point (m : gmap Z nat) (self : TuioToPdConverter) :=
  mkConverter (num_points self) m (points self) (active_ids self)
    (last_send_time self) (send_interval self) (pd_client self).

Definition with_active_ids (a : gset Z) (self : TuioToPdConverter) :=
  mkConverter (num_points self) (id_to_point self) (points self) a
    (last_send_time self) (send_interval self) (pd_client self).

Definition with_last_send_time (t : Q) (self : TuioToPdConverter) :=
  mkConverter (num_points self) (id_to_point self) (points self)
    (active_ids self) t (send_interval self) (pd_client self).

Definition with_pd_client (out : list pd_message) (self : TuioToPdConverter) :=
  mkConverter (num_points self) (id_to_point self) (points self)
    (active_ids self) (last_send_time self) (send_interval self) out.

(** [__init__], with the clock reading [now] of [time.time()]. *)
Definition init (now : Q) : TuioToPdConverter :=
  {| num_points := 20;
     id_to_point := ∅;
     points := replicate 20 sentinel;
     active_ids := ∅;
     last_send_time := now;
     send_interval := 1 # 100;
     pd_client := [] |}.

(** ** [assign_new_id] *)

(** The loop [for i in range(num_points): if points[i][0] == -1: ... return]:
    the first index of the range whose record is free, [Some None] when the
    loop runs to its end, [None] when [points[i]] raises. *)
Fixpoint first_free (pts : list point) (range : list nat) : option (option nat) :=
  match range with
  | [] => Some None
  | i :: range' =>
      p ← pts !! i;
      if is_free p then Some (Some i) else first_free pts range'
  end.

Definition assign_new_id (session_id : Z) (x y x_vel y_vel accel : float)
    (self : TuioToPdConverter) : option TuioToPdConverter :=
  found ← first_free (points self) (seq 0 (num_points self));
  let i := match found with Some i => i | None => 0 end in
  let self := with_id_to_point (<[session_id := i]> (id_to_point self)) self in
  pts ← setitem (points self) i (record x y x_vel y_vel accel);
  let self := with_points pts self in
  Some (with_active_ids ({[session_id]} ∪ active_ids self) self).

(** The state after [session_id] was given slot [i] by [assign_new_id]. *)
Definition assigned (session_id : Z) (i : nat) (p : point)
    (self : TuioToPdConverter) : TuioToPdConverter :=
  mkConverter (num_points self) (<[session_id := i]> (id_to_point self))
    (<[i := p]> (points self)) ({[session_id]} ∪ active_ids self)
    (last_send_time self) (send_interval self) (pd_client self).

(** ** [process_set] *)

Definition process_set (session_id : Z) (x y x_vel y_vel accel : float)
    (self : TuioToPdConverter) : option TuioToPdConverter :=
  match id_to_point self !! session_id with
  | Some point_index =>
      pts ← setitem (points self) point_index (record x y x_vel y_vel accel);
      Some (with_points pts self)
  | None => assign_new_id session_id x y x_vel y_vel accel self
  end.

(** ** [process_alive] *)

(** The body of the loop over [removed_ids]. *)
Definition release (removed_id : Z) (self : TuioToPdConverter)
    : option TuioToPdConverter :=
  match id_to_point self !! removed_id with
  | Some point_index =>
      pts ← setitem (points self) point_index sentinel;
      Some (with_id_to_point (delete removed_id (id_to_point self))
              (with_points pts self))
  | None => Some self
  end.

Fixpoint release_all (removed_ids : list Z) (self : TuioToPdConverter)
    : option TuioToPdConverter :=
  match removed_ids with
  | [] => Some self
  | removed_id :: rest => self' ← release removed_id self; release_all rest self'
  end.

(** The set [removed_ids] is walked in the order of [elements]; the result
    does not depend on that order ([release_all_Permutation] below). *)
Definition process_alive (new_active_ids : gset Z) (self : TuioToPdConverter)
    : option TuioToPdConverter :=
  let removed_ids := active_ids self ∖ new_active_ids in
  self' ← release_all (elements removed_ids) self;
  Some (with_active_ids new_active_ids self').

(** What the loop of [process_alive] over the identifiers [ids] does to a
    state: the bindings of [ids] are gone, the slots they were bound to hold
    the sentinel, and nothing else has changed. *)
Definition released (ids : list Z) (self self' : TuioToPdConverter) : Prop :=
  num_points self' = num_points self ∧
  active_ids self' = active_ids self ∧
  last_send_time self' = last_send_time self ∧
  send_interval self' = send_interval self ∧
  pd_client self' = pd_client self ∧
  length (points self') = length (points self) ∧
  (∀ id, id_to_point self' !! id
         = if decide (id ∈ ids) then None else id_to_point self !! id) ∧
  (∀ i, points self' !! i
        = if decide (Exists (λ id, id_to_point self !! id = Some i) ids)
          then Some sentinel else points self !! i).

(** ** [send_to_puredata] *)

(** The messages the loop builds, slot by slot. *)
Definition snapshot (self : TuioToPdConverter) : option (list pd_message) :=
  mapM (λ i, p ← points self !! i; Some (i, p)) (seq 0 (num_points self)).

(** [struct.pack('>f', f)], with which the client writes a [float] argument,
    raises [OverflowError] on a finite double whose nearest float32 is
    infinite, that is one of magnitude [2^128 - 2^103] or more. Infinities
    and NaN are written. *)
Definition float32_overflows (f : float) : bool :=
  let a := PrimFloat.abs f in
  PrimFloat.leb 0x1.ffffffp+127 a && PrimFloat.ltb a infinity.

(** Whether the client's message builder (python-osc, not part of this
    repository) can write an argument: a [float] as float32, an [int] of at
    most 32 bits as int32 and a longer one as int64; out of range it
    raises. *)
Definition encodes (v : num) : bool :=
  match v with
  | PyInt n =>
      if decide (Z.abs n < 2 ^ 32)%Z
      then bool_decide (- 2 ^ 31 ≤ n < 2 ^ 31)%Z
      else bool_decide (- 2 ^ 63 ≤ n < 2 ^ 63)%Z
  | PyFloat f => negb (float32_overflows f)
  end.

Definition encodes_point (p : point) : bool :=
  let '(x, y, vx, vy, accel) := p in
  encodes x && encodes y && encodes vx && encodes vy && encodes accel.

(** [send_message("/point", [i, x, y, vx, vy, accel])] builds the whole
    message before it sends it: it raises, and sends nothing, when one of
    the six arguments cannot be written. *)
Definition encodes_message (m : pd_message) : bool :=
  encodes (PyInt (Z.of_nat m.1)) && encodes_point m.2.

(** How the loop of [send_to_puredata] ended, with the messages the client
    has sent by then. *)
Inductive send_result : Type :=
  | Completed (sent : list pd_message)
  | Raised (sent : list pd_message).

(** The loop [for i in range(num_points): ... send_message(...)]. It stops
    at the first index whose [points[i]] or whose [send_message] raises; the
    messages before that one have been sent. Failures of the UDP socket
    itself are not modelled. *)
Fixpoint send_loop (pts : list point) (range : list nat) (sent : list pd_message)
    : send_result :=
  match range with
  | [] => Completed sent
  | i :: range' =>
      match pts !! i with
      | None => Raised sent
      | Some p =>
          if encodes_message (i, p)
          then send_loop pts range' (sent ++ [(i, p)])
          else Raised sent
      end
  end.

Definition send_to_puredata (self : TuioToPdConverter) : option TuioToPdConverter :=
  match send_loop (points self) (seq 0 (num_points self)) (pd_client self) with
  | Completed sent => Some (with_pd_client sent self)
  | Raised _ => None
  end.

(** ** [handle_tuio_message] *)

(** The body of the [fseq] branch, with [current_time] the reading of
    [time.time()]. *)
Definition frame_boundary (current_time : Q) (self : TuioToPdConverter)
    : option TuioToPdConverter :=
  if Qle_bool (send_interval self) (current_time - last_send_time self)
  then self' ← send_to_puredata self;
       Some (with_last_send_time current_time self')
  else Some self.

(** The converter once the server has handled an [fseq] message, whether the
    handler returned or [send_message] raised: the server reports an
    exception of the handler and serves on. After a raise the messages sent
    before it stay sent and [last_send_time] is not recorded. *)
Definition after_boundary (current_time : Q) (self : TuioToPdConverter)
    : TuioToPdConverter :=
  if Qle_bool (send_interval self) (current_time - last_send_time self)
  then match send_loop (points self) (seq 0 (num_points self)) (pd_client self) with
       | Completed sent =>
           with_last_send_time current_time (with_pd_client sent self)
       | Raised sent => with_pd_client sent self
       end
  else self.

(** A decoded OSC argument. *)
Inductive osc_arg : Type :=
  | OscInt (n : Z)
  | OscFloat (f : float)
  | OscStr (s : string).

(** [a == s] for a string literal [s]. *)
Definition eq_str (a : osc_arg) (s : string) : bool :=
  match a with
  | OscStr s' => String.eqb s' s
  | _ => false
  end.

Section Dispatch.
(** Python's conversions [int(a)] and [float(a)] of a decoded argument;
    [None] when the conversion raises. *)
Variable py_int : osc_arg → option Z.
Variable py_float : osc_arg → option float.

Definition handle_tuio_message (current_time : Q) (args : list osc_arg)
    (self : TuioToPdConverter) : option TuioToPdConverter :=
  match args with
  | [] => Some self
  | command :: _ =>
      if eq_str command "set" then
        if decide (length args < 7) then Some self
        else
          session_id ← args !! 1 ≫= py_int;
          x ← args !! 2 ≫= py_float;
          y ← args !! 3 ≫= py_float;
          x_vel ← args !! 4 ≫= py_float;
          y_vel ← args !! 5 ≫= py_float;
          accel ← args !! 6 ≫= py_float;
          process_set session_id x y x_vel y_vel accel self
      else if eq_str command "alive" then
        ids ← mapM py_int (drop 1 args);
        process_alive (list_to_set ids) self
      else if eq_str command "fseq" then
        frame_boundary current_time self
      else Some self
  end.
End Dispatch.

(** ** Event streams *)

(** The three typed events of the engine: [update], [liveness] and
    [frameBoundary] (with the clock reading taken when it is handled).
    [apply_event] is the converter once the event has been handled. A frame
    boundary whose send raises leaves the state of [after_boundary], and the
    stream goes on; [None] stands for the [IndexError] of an update or an
    announcement, which no stream meets after [__init__]. *)
Inductive event : Type :=
  | Update (session_id : Z) (x y x_vel y_vel accel : float)
  | Liveness (new_active_ids : gset Z)
  | Boundary (current_time : Q).

Definition apply_event (ev : event) (self : TuioToPdConverter)
    : option TuioToPdConverter :=
  match ev with
  | Update session_id x y x_vel y_vel accel =>
      process_set session_id x y x_vel y_vel accel self
  | Liveness new_active_ids => process_alive new_active_ids self
  | Boundary current_time => Some (after_boundary current_time self)
  end.

Fixpoint run (evs : list event) (self : TuioToPdConverter)
    : option TuioToPdConverter :=
  match evs with
  | [] => Some self
  | ev :: evs' => self' ← apply_event ev self; run evs' self'
  end.

(** ** State predicates *)

(** Slot [i] holds a record whose first component is not [-1]. *)
Definition occupied (self : TuioToPdConverter) (i : nat) : Prop :=
  ∃ p, points self !! i = Some p ∧ is_free p = false.

(** No slot has [x == -1]. *)
Definition all_occupied (self : TuioToPdConverter) : bool :=
  forallb (λ p, negb (is_free p)) (points self).

(** Every slot has [x == -1]. *)
Definition all_free (self : TuioToPdConverter) : bool :=
  forallb is_free (points self).

(** The shape every method relies on: the table has [num_points] entries,
    there is at least one, and every binding is an index of the table. *)
Definition wf (self : TuioToPdConverter) : Prop :=
  length (points self) = num_points self ∧
  0 < num_points self ∧
  map_Forall (λ _ i, i < num_points self) (id_to_point self).

#[global] Instance wf_dec self : Decision (wf self).
Proof. unfold wf. apply _. Defined.

(** Every occupied slot has an identifier bound to it. *)
Definition bound_if_occupied (self : TuioToPdConverter) : Prop :=
  ∀ i, occupied self i → ∃ id, id_to_point self !! id = Some i.

(** Every bound identifier is in the active set. *)
Definition bound_are_active (self : TuioToPdConverter) : Prop :=
  ∀ id i, id_to_point self !! id = Some i → id ∈ active_ids self.

(** The binding map is a bijection between the bound identifiers and the
    occupied slots. *)
Definition bijection (self : TuioToPdConverter) : Prop :=
  (∀ id i, id_to_point self !! id = Some i → occupied self i) ∧
  (∀ a b i, id_to_point self !! a = Some i → id_to_point self !! b = Some i → a = b) ∧
  (∀ i, occupied self i → ∃ id, id_to_point self !! id = Some i).

(** An update that takes the overflow path of [assign_new_id]. *)
Definition overflows (ev : event) (self : TuioToPdConverter) : bool :=
  match ev with
  | Update session_id _ _ _ _ _ =>
      bool_decide (id_to_point self !! session_id = None) && all_occupied self
  | _ => false
  end.

(** Every message of the snapshot can be written by the client. *)
Definition all_encode (self : TuioToPdConverter) : bool :=
  forallb encodes_message (zip (seq 0 (num_points self)) (points self)).

(** An update whose five coordinates can be written by the client. *)
Definition encodable (ev : event) : bool :=
  match ev with
  | Update _ x y x_vel y_vel accel => encodes_point (record x y x_vel y_vel accel)
  | _ => true
  end.

(** An update whose [x] equals the sentinel [-1]. *)
Definition carries_minus_one (ev : event) : bool :=
  match ev with
  | Update _ x _ _ _ _ => PrimFloat.eqb x (-1)%float
  | _ => false
  end.

(** No event of the stream, started in [self], takes the overflow path. *)
Fixpoint no_overflow (evs : list event) (self : TuioToPdConverter) : bool :=
  match evs with
  | [] => true
  | ev :: evs' =>
      negb (overflows ev self) &&
      match apply_event ev self with
      | Some self' => no_overflow evs' self'
      | None => true
      end
  end.

(** A frame-boundary event. *)
Definition is_boundary (ev : event) : bool :=
  match ev with
  | Boundary _ => true
  | _ => false
  end.

(** A converter to which the identifiers 4 and 5 were announced and for which
    no update has arrived. *)
Definition announced : TuioToPdConverter :=
  with_active_ids {[4%Z; 5%Z]} (init 0).

(** [int(a)] and [float(a)] on numeric arguments: an [int] converts to
    itself, and so does a [float]; any other case raises in this sample. *)
Definition int_of_int (a : osc_arg) : option Z :=
  match a with
  | OscInt n => Some n
  | _ => None
  end.

Definition float_of_float (a : osc_arg) : option float :=
  match a with
  | OscFloat f => Some f
  | _ => None
  end.

(** A publish at time 1, an update, and a publish at time 2. *)
Definition after_first_publish : TuioToPdConverter :=
  default (init 0) (frame_boundary 1 (init 0)).

Definition before_second_publish : TuioToPdConverter :=
  default (init 0) (run [Update 1 0.5 0.5 0 0 0] after_first_publish).

Definition after_second_publish : TuioToPdConverter :=
  default (init 0) (frame_boundary 2 before_second_publish).

(** A table whose slot 1 holds a coordinate beyond the float32 range. *)
Definition unwritable_table : TuioToPdConverter :=
  default (init 0)
    (run [Update 1 0.5 0.5 0 0 0; Update 2 0x1p+130 0.5 0 0 0] (init 0)).

(** A closed decidable proposition, settled by evaluating its decision
    procedure. *)
Ltac by_compute := apply (bool_decide_unpack _); vm_compute; exact I.

(** ** Sample streams and states *)

(** Twenty updates, for the identifiers 1 to 20; they fill the table. *)
Definition fill_table : list event :=
  map (λ k, Update (Z.of_nat k) 0.5 0.5 0 0 0) (seq 1 20).

(** The state they lead to from a converter created at time 0. *)
Definition full_table : TuioToPdConverter :=
  default (init 0) (run fill_table (init 0)).

(** A first update whose [x] is [-1], then an update for a second
    identifier. *)
Definition minus_one_stream : list event :=
  [Update 1 (-1) 0 0 0 0; Update 2 0.5 0.5 0 0 0].

(** Updates and a liveness announcement that never fill the table and never
    carry [x == -1]. *)
Definition regular_stream : list event :=
  [Update 7 0.5 0.5 0 0 0; Update 3 0.25 0.5 0 0 0; Liveness {[3%Z]};
   Boundary 1; Update 9 0.75 0.5 0 0 0; Update 3 0.5 0.25 0 0 0].

Definition regular_state : TuioToPdConverter :=
  default (init 0) (run regular_stream (init 0)).

(** The identifiers 1, 2 and 3 bound to the slots 0, 1 and 2. *)
Definition three_bound : TuioToPdConverter :=
  {| num_points := 20;
     id_to_point := {[1%Z := 0; 2%Z := 1; 3%Z := 2]};
     points := [record 0.125 0.5 0 0 0; record 0.25 0.5 0 0 0; record 0.375 0.5 0 0 0]
               ++ replicate 17 sentinel;
     active_ids := {[1%Z; 2%Z; 3%Z]};
     last_send_time := 0;
     send_interval := 1 # 100;
     pd_client := [] |}.

(** Identifier 1 is bound to slot 0, frees it by an update with [x == -1],
    and identifier 2 is then given the same slot. *)
Definition shared_slot_stream : list event :=
  [Update 1 0.5 0.5 0 0 0; Update 1 (-1) 0.5 0 0 0; Update 2 0.25 0.75 0 0 0].

(** Three new identifiers, the first of them with [x == -1]. *)
Definition minus_one_first : list event :=
  [Update 7 (-1) 0.5 0 0 0; Update 3 0.25 0.5 0 0 0; Update 9 0.75 0.5 0 0 0].

Example first_free_init : first_free (points (init 0)) (seq 0 20) = Some (Some 0).
Proof. reflexivity. Qed.

Example process_set_init :
  (s ← process_set 7 0.5 0.5 0 0 0 (init 0); Some (id_to_point s !! 7%Z, points s !! 0))
  = Some (Some 0, Some (record 0.5 0.5 0 0 0)).
Proof. vm_compute. reflexivity. Qed.

Example wf_init : wf (init 0).
Proof. by_compute. Qed.

(** ** List assignment and the search loop *)

Lemma setitem_Some {A : Type} (l : list A) (i : nat) (v : A) :
  i < length l → setitem l i v = Some (<[i:=v]> l).
Proof. intros Hi. unfold setitem. by rewrite decide_True. Qed.

Lemma setitem_inv {A : Type} (l l' : list A) (i : nat) (v : A) :
  setitem l i v = Some l' → i < length l ∧ l' = <[i:=v]> l.
Proof. unfold setitem. case_decide; naive_solver. Qed.

Lemma is_free_sentinel : is_free sentinel = true.
Proof. reflexivity. Qed.

Lemma is_free_record x y x_vel y_vel accel :
  is_free (record x y x_vel y_vel accel) = PrimFloat.eqb x (-1)%float.
Proof. reflexivity. Qed.

(** On a range inside the table the search raises nothing and returns the
    least free index of the range, if there is one. *)
Lemma first_free_seq (pts : list point) (a k : nat) :
  a + k ≤ length pts →
  ∃ found, first_free pts (seq a k) = Some found ∧
    match found with
    | Some i =>
        a ≤ i < a + k ∧
        (∃ p, pts !! i = Some p ∧ is_free p = true) ∧
        (∀ j p, a ≤ j < i → pts !! j = Some p → is_free p = false)
    | None => ∀ j p, a ≤ j < a + k → pts !! j = Some p → is_free p = false
    end.
Proof.
  revert a. induction k as [|k IH]; intros a Hlen; simpl.
  - exists None. split; [done|]. intros j p Hj. lia.
  - destruct (lookup_lt_is_Some_2 pts a) as [p Hp]; [lia|].
    rewrite Hp. simpl. destruct (is_free p) eqn:Hfree.
    + exists (Some a). split; [done|]. split; [lia|]. split; [by exists p|].
      intros j q Hj. lia.
    + destruct (IH (S a)) as (found & Hfound & Hspec); [lia|].
      exists found. split; [done|]. destruct found as [i|].
      * destruct Hspec as (Hi & Hp' & Hbelow). split; [lia|]. split; [done|].
        intros j q Hj Hq. destruct (decide (j = a)) as [->|Hne].
        -- congruence.
        -- apply (Hbelow j q); [lia|done].
      * intros j q Hj Hq. destruct (decide (j = a)) as [->|Hne].
        -- congruence.
        -- apply (Hspec j q); [lia|done].
Qed.

Lemma all_occupied_lookup (self : TuioToPdConverter) :
  all_occupied self = true ↔
  ∀ i p, points self !! i = Some p → is_free p = false.
Proof.
  unfold all_occupied. rewrite forallb_forall. split.
  - intros H i p Hp. apply negb_true_iff, H.
    apply list_elem_of_In, list_elem_of_lookup. by exists i.
  - intros H p Hin. apply list_elem_of_In, list_elem_of_lookup in Hin as [i Hi].
    apply negb_true_iff. by apply (H i).
Qed.

Lemma all_free_lookup (self : TuioToPdConverter) :
  all_free self = true ↔
  ∀ i p, points self !! i = Some p → is_free p = true.
Proof.
  unfold all_free. rewrite forallb_forall. split.
  - intros H i p Hp. apply H, list_elem_of_In, list_elem_of_lookup. by exists i.
  - intros H p Hin. apply list_elem_of_In, list_elem_of_lookup in Hin as [i Hi].
    by apply (H i).
Qed.

(** In a well-formed state the search returns [None] exactly when every
    slot is occupied. *)
Lemma first_free_wf (self : TuioToPdConverter) :
  wf self →
  ∃ found, first_free (points self) (seq 0 (num_points self)) = Some found ∧
    match found with
    | Some i =>
        i < num_points self ∧
        (∃ p, points self !! i = Some p ∧ is_free p = true) ∧
        (∀ j, j < i → occupied self j)
    | None => all_occupied self = true
    end.
Proof.
  intros (Hlen & Hpos & Hbind).
  destruct (first_free_seq (points self) 0 (num_points self)) as (found & Hf & Hspec);
    [lia|].
  exists found. split; [done|]. destruct found as [i|].
  - destruct Hspec as (Hi & Hp & Hbelow). split; [lia|]. split; [done|].
    intros j Hj. destruct (lookup_lt_is_Some_2 (points self) j) as [q Hq]; [lia|].
    exists q. split; [done|]. apply (Hbelow j q); [lia|done].
  - apply all_occupied_lookup. intros i p Hp. apply (Hspec i p); [|done].
    apply lookup_lt_Some in Hp. lia.
Qed.

(** ** The three paths of an update *)

Lemma process_set_refresh session_id x y x_vel y_vel accel self i :
  wf self →
  id_to_point self !! session_id = Some i →
  process_set session_id x y x_vel y_vel accel self
  = Some (with_points (<[i := record x y x_vel y_vel accel]> (points self)) self).
Proof.
  intros (Hlen & Hpos & Hbind) Hi. unfold process_set. rewrite Hi.
  rewrite setitem_Some; [done|]. rewrite Hlen. by apply (Hbind session_id).
Qed.

Lemma process_set_free_slot session_id x y x_vel y_vel accel self i :
  wf self →
  id_to_point self !! session_id = None →
  first_free (points self) (seq 0 (num_points self)) = Some (Some i) →
  process_set session_id x y x_vel y_vel accel self
  = Some (assigned session_id i (record x y x_vel y_vel accel) self).
Proof.
  intros Hwf Hid Hfound. destruct (first_free_wf self Hwf) as (found & Hf & Hspec).
  rewrite Hfound in Hf. injection Hf as <-. destruct Hspec as (Hi & _ & _).
  destruct Hwf as (Hlen & Hpos & Hbind).
  unfold process_set, assign_new_id. rewrite Hid, Hfound. simpl.
  rewrite setitem_Some; [done|]. lia.
Qed.

Lemma process_set_overflow session_id x y x_vel y_vel accel self :
  wf self →
  id_to_point self !! session_id = None →
  first_free (points self) (seq 0 (num_points self)) = Some None →
  process_set session_id x y x_vel y_vel accel self
  = Some (assigned session_id 0 (record x y x_vel y_vel accel) self).
Proof.
  intros (Hlen & Hpos & Hbind) Hid Hfound.
  unfold process_set, assign_new_id. rewrite Hid, Hfound. simpl.
  rewrite setitem_Some; [done|]. lia.
Qed.

(** The cases of [process_set], as one disjunction. *)
Lemma process_set_cases session_id x y x_vel y_vel accel self :
  wf self →
  (∃ i, id_to_point self !! session_id = Some i ∧ i < num_points self ∧
        process_set session_id x y x_vel y_vel accel self
        = Some (with_points (<[i := record x y x_vel y_vel accel]> (points self)) self))
  ∨ (∃ i, id_to_point self !! session_id = None ∧ i < num_points self ∧
        (∃ p, points self !! i = Some p ∧ is_free p = true) ∧
        (∀ j, j < i → occupied self j) ∧
        process_set session_id x y x_vel y_vel accel self
        = Some (assigned session_id i (record x y x_vel y_vel accel) self))
  ∨ (id_to_point self !! session_id = None ∧ all_occupied self = true ∧
        process_set session_id x y x_vel y_vel accel self
        = Some (assigned session_id 0 (record x y x_vel y_vel accel) self)).
Proof.
  intros Hwf. destruct (id_to_point self !! session_id) as [i|] eqn:Hid.
  - left. exists i. split; [done|]. split.
    + destruct Hwf as (_ & _ & Hbind). by apply (Hbind session_id).
    + by apply process_set_refresh.
  - right. destruct (first_free_wf self Hwf) as (found & Hf & Hspec).
    destruct found as [i|].
    + left. exists i. destruct Hspec as (Hi & Hp & Hbelow).
      repeat split; [done..|]. by apply process_set_free_slot.
    + right. repeat split; [done|]. by apply process_set_overflow.
Qed.

Lemma wf_with_points pts self :
  length pts = length (points self) → wf self → wf (with_points pts self).
Proof. intros Hl (Hlen & Hpos & Hbind). repeat split; simpl; [congruence|done..]. Qed.

Lemma wf_assigned session_id i p self :
  i < num_points self → wf self → wf (assigned session_id i p self).
Proof.
  intros Hi (Hlen & Hpos & Hbind). repeat split; simpl.
  - by rewrite length_insert.
  - done.
  - by apply map_Forall_insert_2.
Qed.

(** An update raises nothing and keeps the state well-formed. *)
Lemma process_set_wf session_id x y x_vel y_vel accel self :
  wf self →
  ∃ self', process_set session_id x y x_vel y_vel accel self = Some self' ∧ wf self'.
Proof.
  intros Hwf.
  destruct (process_set_cases session_id x y x_vel y_vel accel self Hwf)
    as [(i & _ & Hi & ->)|[(i & _ & Hi & _ & _ & ->)|(_ & _ & ->)]].
  - eexists. split; [done|]. apply wf_with_points; [by rewrite length_insert|done].
  - eexists. split; [done|]. by apply wf_assigned.
  - eexists. split; [done|]. apply wf_assigned; [|done]. by destruct Hwf as (_ & ? & _).
Qed.

(** ** Liveness announcements *)

Lemma release_bound removed_id i self :
  wf self →
  id_to_point self !! removed_id = Some i →
  release removed_id self
  = Some (with_id_to_point (delete removed_id (id_to_point self))
            (with_points (<[i := sentinel]> (points self)) self)).
Proof.
  intros (Hlen & Hpos & Hbind) Hi. unfold release. rewrite Hi.
  rewrite setitem_Some; [done|]. rewrite Hlen. by apply (Hbind removed_id).
Qed.

Lemma release_unbound removed_id self :
  id_to_point self !! removed_id = None → release removed_id self = Some self.
Proof. intros Hi. unfold release. by rewrite Hi. Qed.

Lemma release_wf removed_id self :
  wf self → ∃ self', release removed_id self = Some self' ∧ wf self'.
Proof.
  intros Hwf. destruct (id_to_point self !! removed_id) as [i|] eqn:Hi.
  - rewrite (release_bound _ i) by done. eexists. split; [done|].
    destruct Hwf as (Hlen & Hpos & Hbind). repeat split; simpl.
    + by rewrite length_insert.
    + done.
    + by apply map_Forall_delete.
  - rewrite release_unbound by done. by exists self.
Qed.

Lemma release_all_released ids self :
  wf self → ∃ self', release_all ids self = Some self' ∧ released ids self self'.
Proof.
  revert self. induction ids as [|a rest IH]; intros self Hwf; simpl.
  - exists self. split; [done|]. unfold released. repeat split.
  - destruct (id_to_point self !! a) as [i0|] eqn:Ha.
    + rewrite (release_bound _ i0) by done. simpl.
      set (self1 := with_id_to_point _ _).
      assert (wf self1) as Hwf1.
      { destruct (release_wf a self Hwf) as (s1 & Hs1 & Hw).
        rewrite (release_bound _ i0) in Hs1 by done. by injection Hs1 as <-. }
      destruct (IH self1 Hwf1) as (self' & Hrun & Hrel).
      exists self'. split; [done|].
      destruct Hrel as (Hn & Hact & Hlast & Hint & Hpd & Hlen' & Hb & Hp).
      assert (i0 < length (points self)) as Hi0.
      { destruct Hwf as (Hlen & _ & Hbind). rewrite Hlen. by apply (Hbind a). }
      unfold released. repeat split; try done.
      * rewrite Hlen'. simpl. by rewrite length_insert.
      * intros id. rewrite Hb. simpl.
        destruct (decide (id = a)) as [->|Hne].
        -- rewrite (decide_True (P := a ∈ a :: rest)) by apply list_elem_of_here.
           case_decide; [done|]. by rewrite lookup_delete_eq.
        -- rewrite lookup_delete_ne by done.
           destruct (decide (id ∈ rest)) as [Hin|Hnin].
           ++ rewrite decide_True; [done|]. by apply list_elem_of_further.
           ++ rewrite decide_False; [done|].
              rewrite elem_of_cons. by intros [?|?].
      * intros i. rewrite Hp. simpl.
        destruct (decide (Exists (λ id, delete a (id_to_point self) !! id = Some i) rest))
          as [Hex|Hnex].
        -- rewrite decide_True; [done|]. apply Exists_cons. right.
           eapply Exists_impl; [exact Hex|]. intros id Hid.
           apply lookup_delete_Some in Hid. by destruct Hid.
        -- destruct (decide (i = i0)) as [->|Hne].
           ++ rewrite list_lookup_insert_eq by done.
              rewrite decide_True; [done|]. apply Exists_cons. by left.
           ++ rewrite list_lookup_insert_ne by done.
              rewrite decide_False; [done|]. rewrite Exists_cons.
              intros [Hhd|Htl]; [congruence|]. apply Hnex.
              eapply Exists_impl; [exact Htl|]. intros id Hid.
              apply lookup_delete_Some. split; [|done]. congruence.
    + rewrite release_unbound by done. simpl.
      destruct (IH self Hwf) as (self' & Hrun & Hrel).
      exists self'. split; [done|].
      destruct Hrel as (Hn & Hact & Hlast & Hint & Hpd & Hlen' & Hb & Hp).
      unfold released. repeat split; try done.
      * intros id. rewrite Hb.
        destruct (decide (id = a)) as [->|Hne].
        -- rewrite (decide_True (P := a ∈ a :: rest)) by apply list_elem_of_here.
           by case_decide.
        -- destruct (decide (id ∈ rest)) as [Hin|Hnin].
           ++ rewrite decide_True; [done|]. by apply list_elem_of_further.
           ++ rewrite decide_False; [done|]. rewrite elem_of_cons. by intros [?|?].
      * intros i. rewrite Hp.
        destruct (decide (Exists (λ id, id_to_point self !! id = Some i) rest))
          as [Hex|Hnex].
        -- rewrite decide_True; [done|]. apply Exists_cons. by right.
        -- rewrite decide_False; [done|]. rewrite Exists_cons.
           intros [Hhd|Htl]; [congruence|done].
Qed.

Lemma released_wf ids self self' : released ids self self' → wf self → wf self'.
Proof.
  intros (Hn & _ & _ & _ & _ & Hlen' & Hb & _) (Hlen & Hpos & Hbind).
  repeat split; [congruence|congruence|].
  intros id i Hid. rewrite Hb in Hid. case_decide; [done|].
  rewrite Hn. by apply (Hbind id).
Qed.

Lemma released_lookup_reset ids self self' id i :
  released ids self self' →
  id ∈ ids → id_to_point self !! id = Some i →
  points self' !! i = Some sentinel ∧ id_to_point self' !! id = None.
Proof.
  intros (_ & _ & _ & _ & _ & _ & Hb & Hp) Hin Hid. split.
  - rewrite Hp, decide_True; [done|]. apply Exists_exists. by exists id.
  - by rewrite Hb, decide_True.
Qed.

Lemma released_lookup_keep ids self self' i :
  released ids self self' →
  (∀ id, id ∈ ids → id_to_point self !! id ≠ Some i) →
  points self' !! i = points self !! i.
Proof.
  intros (_ & _ & _ & _ & _ & _ & _ & Hp) Hno.
  rewrite Hp, decide_False; [done|]. rewrite Exists_exists.
  intros (id & Hin & Hid). by apply (Hno id).
Qed.

Lemma released_binding_keep ids self self' id :
  released ids self self' → id ∉ ids →
  id_to_point self' !! id = id_to_point self !! id.
Proof. intros (_ & _ & _ & _ & _ & _ & Hb & _) Hin. by rewrite Hb, decide_False. Qed.

(** The postcondition fixes the resulting state: it depends on the set of
    removed identifiers only. *)
Lemma released_unique ids ids' self self1 self2 :
  (∀ id, id ∈ ids ↔ id ∈ ids') →
  released ids self self1 → released ids' self self2 → self1 = self2.
Proof.
  intros Hsame (Hn1 & Ha1 & Hl1 & Hi1 & Hc1 & _ & Hb1 & Hp1)
         (Hn2 & Ha2 & Hl2 & Hi2 & Hc2 & _ & Hb2 & Hp2).
  destruct self1 as [n1 b1 p1 a1 l1 i1 c1], self2 as [n2 b2 p2 a2 l2 i2 c2].
  simpl in *. f_equal; try congruence.
  - apply map_eq. intros id. rewrite Hb1, Hb2.
    destruct (decide (id ∈ ids)) as [Hin|Hnin].
    + rewrite decide_True; [done|]. by apply Hsame.
    + rewrite decide_False; [done|]. by rewrite <- Hsame.
  - apply list_eq. intros i. rewrite Hp1, Hp2.
    destruct (decide (Exists (λ id, id_to_point self !! id = Some i) ids))
      as [Hex|Hnex].
    + rewrite decide_True; [done|]. apply Exists_exists in Hex as (id & ? & ?).
      apply Exists_exists. exists id. split; [by apply Hsame|done].
    + rewrite decide_False; [done|]. intros Hex. apply Hnex.
      apply Exists_exists in Hex as (id & ? & ?).
      apply Exists_exists. exists id. split; [by apply Hsame|done].
Qed.

(** The order in which the removed identifiers are walked is immaterial. *)
Lemma release_all_Permutation ids ids' self :
  wf self → ids ≡ₚ ids' → release_all ids self = release_all ids' self.
Proof.
  intros Hwf Hperm.
  destruct (release_all_released ids self Hwf) as (s1 & -> & H1).
  destruct (release_all_released ids' self Hwf) as (s2 & -> & H2).
  f_equal. apply (released_unique ids ids' self); [|done..].
  intros id. by rewrite Hperm.
Qed.

Lemma process_alive_released new_active_ids self :
  wf self →
  ∃ self0, released (elements (active_ids self ∖ new_active_ids)) self self0 ∧
    process_alive new_active_ids self = Some (with_active_ids new_active_ids self0).
Proof.
  intros Hwf. unfold process_alive.
  destruct (release_all_released (elements (active_ids self ∖ new_active_ids)) self Hwf)
    as (self0 & -> & Hrel).
  by exists self0.
Qed.

Lemma process_alive_wf new_active_ids self :
  wf self → ∃ self', process_alive new_active_ids self = Some self' ∧ wf self'.
Proof.
  intros Hwf. destruct (process_alive_released new_active_ids self Hwf)
    as (self0 & Hrel & ->).
  eexists. split; [done|]. by apply (released_wf _ _ _ Hrel) in Hwf.
Qed.

(** ** Publishing *)

Lemma snapshot_wf self :
  wf self → ∃ msgs, snapshot self = Some msgs ∧ length msgs = num_points self.
Proof.
  intros (Hlen & _ & _). unfold snapshot.
  destruct (mapM (λ i, p ← points self !! i; Some (i, p)) (seq 0 (num_points self)))
    as [msgs|] eqn:Hm.
  - exists msgs. split; [done|]. apply length_mapM in Hm. by rewrite length_seq in Hm.
  - exfalso. apply eq_None_not_Some in Hm. apply Hm, mapM_is_Some.
    apply Forall_forall. intros i Hi. apply elem_of_seq in Hi. simpl.
    destruct (lookup_lt_is_Some_2 (points self) i) as [p Hp]; [lia|].
    by rewrite Hp.
Qed.

Lemma snapshot_seq (pts : list point) (a k : nat) :
  a + k ≤ length pts →
  mapM (λ i, p ← pts !! i; Some (i, p)) (seq a k)
  = Some (zip (seq a k) (take k (drop a pts))).
Proof.
  revert a. induction k as [|k IH]; intros a Hlen; [done|].
  destruct (lookup_lt_is_Some_2 pts a) as [p Hp]; [lia|].
  rewrite (drop_S _ _ _ Hp). simpl. rewrite Hp. simpl.
  rewrite IH by lia. done.
Qed.

Lemma snapshot_zip self :
  wf self → snapshot self = Some (zip (seq 0 (num_points self)) (points self)).
Proof.
  intros (Hlen & _ & _). unfold snapshot.
  rewrite snapshot_seq by lia. rewrite drop_0, take_ge by lia. done.
Qed.

(** The loop only adds to what the client has sent. *)
Lemma send_loop_sent pts range sent :
  ∃ more, send_loop pts range sent = Completed (sent ++ more) ∨
          send_loop pts range sent = Raised (sent ++ more).
Proof.
  revert sent. induction range as [|i range IH]; intros sent; simpl.
  - exists []. left. by rewrite app_nil_r.
  - destruct (pts !! i) as [p|]; [|exists []; right; by rewrite app_nil_r].
    destruct (encodes_message (i, p)); [|exists []; right; by rewrite app_nil_r].
    destruct (IH (sent ++ [(i, p)])) as (more & Hmore).
    exists ((i, p) :: more). by rewrite <- app_assoc in Hmore.
Qed.

(** It completes exactly when every message can be written. *)
Lemma send_loop_seq (pts : list point) (a k : nat) sent :
  a + k ≤ length pts →
  if forallb encodes_message (zip (seq a k) (take k (drop a pts)))
  then send_loop pts (seq a k) sent
       = Completed (sent ++ zip (seq a k) (take k (drop a pts)))
  else ∃ sent', send_loop pts (seq a k) sent = Raised sent'.
Proof.
  revert a sent. induction k as [|k IH]; intros a sent Hlen.
  { simpl. by rewrite app_nil_r. }
  destruct (lookup_lt_is_Some_2 pts a) as [p Hp]; [lia|].
  rewrite (drop_S _ _ _ Hp).
  change (zip (seq a (S k)) (take (S k) (p :: drop (S a) pts)))
    with ((a, p) :: zip (seq (S a) k) (take k (drop (S a) pts))).
  change (send_loop pts (seq a (S k)) sent)
    with (match pts !! a with
          | None => Raised sent
          | Some p =>
              if encodes_message (a, p)
              then send_loop pts (seq (S a) k) (sent ++ [(a, p)])
              else Raised sent
          end).
  rewrite Hp. cbn [forallb]. destruct (encodes_message (a, p)); [|by exists sent].
  cbn [andb]. specialize (IH (S a) (sent ++ [(a, p)])).
  destruct (forallb encodes_message (zip (seq (S a) k) (take k (drop (S a) pts)))).
  - rewrite IH by lia. by rewrite <- app_assoc.
  - apply IH. lia.
Qed.

Lemma send_loop_all_encode self :
  wf self → all_encode self = true →
  send_loop (points self) (seq 0 (num_points self)) (pd_client self)
  = Completed (pd_client self ++ zip (seq 0 (num_points self)) (points self)).
Proof.
  intros (Hlen & _ & _) Henc.
  pose proof (send_loop_seq (points self) 0 (num_points self) (pd_client self))
    as Hloop.
  rewrite drop_0, take_ge in Hloop by lia. unfold all_encode in Henc.
  rewrite Henc in Hloop. apply Hloop. lia.
Qed.

Lemma send_to_puredata_encodes self :
  wf self → all_encode self = true →
  send_to_puredata self
  = Some (with_pd_client
            (pd_client self ++ zip (seq 0 (num_points self)) (points self)) self).
Proof.
  intros Hwf Henc. unfold send_to_puredata.
  by rewrite (send_loop_all_encode self Hwf Henc).
Qed.

Lemma send_to_puredata_raises self :
  wf self → all_encode self = false → send_to_puredata self = None.
Proof.
  intros (Hlen & _ & _) Henc. unfold send_to_puredata.
  pose proof (send_loop_seq (points self) 0 (num_points self) (pd_client self))
    as Hloop.
  rewrite drop_0, take_ge in Hloop by lia. unfold all_encode in Henc.
  rewrite Henc in Hloop. destruct Hloop as [sent' ->]; [lia|done].
Qed.

(** A frame boundary, returned or raised, leaves the engine as it was. *)
Lemma after_boundary_engine current_time self :
  num_points (after_boundary current_time self) = num_points self ∧
  id_to_point (after_boundary current_time self) = id_to_point self ∧
  points (after_boundary current_time self) = points self ∧
  active_ids (after_boundary current_time self) = active_ids self ∧
  send_interval (after_boundary current_time self) = send_interval self.
Proof.
  unfold after_boundary. destruct (Qle_bool _ _); [|done].
  by destruct (send_loop _ _ _).
Qed.

Lemma after_boundary_wf current_time self :
  wf self → wf (after_boundary current_time self).
Proof.
  destruct (after_boundary_engine current_time self) as (Hn & Hb & Hp & _).
  unfold wf. by rewrite Hn, Hb, Hp.
Qed.

(** When the handler returns, the state it returns is the state it leaves. *)
Lemma frame_boundary_after current_time self self' :
  frame_boundary current_time self = Some self' →
  after_boundary current_time self = self'.
Proof.
  unfold frame_boundary, after_boundary, send_to_puredata.
  destruct (Qle_bool _ _); [|by intros [= <-]].
  destruct (send_loop _ _ _); [|done]. by intros [= <-].
Qed.

(** ** Every stream of events runs to a well-formed state *)

Lemma apply_event_wf ev self :
  wf self → ∃ self', apply_event ev self = Some self' ∧ wf self'.
Proof.
  intros Hwf. destruct ev as [id x y vx vy a|ids|t]; simpl.
  - by apply process_set_wf.
  - by apply process_alive_wf.
  - eexists. split; [done|]. by apply after_boundary_wf.
Qed.

Lemma run_wf evs self :
  wf self → ∃ self', run evs self = Some self' ∧ wf self'.
Proof.
  revert self. induction evs as [|ev evs IH]; intros self Hwf; simpl.
  - by exists self.
  - destruct (apply_event_wf ev self Hwf) as (self1 & -> & Hwf1). simpl. by apply IH.
Qed.

Lemma wf_init_any now : wf (init now).
Proof.
  repeat split; simpl; [lia|]. apply map_Forall_empty.
Qed.

Lemma run_init_wf evs now : ∃ self, run evs (init now) = Some self ∧ wf self.
Proof. apply run_wf, wf_init_any. Qed.

(** ** Occupied slots keep an identifier *)

Lemma occupied_not_free self i p :
  points self !! i = Some p → is_free p = true → ¬ occupied self i.
Proof. intros Hp Hfree (q & Hq & Hocc). congruence. Qed.

Lemma released_occupied ids self self' i :
  released ids self self' → occupied self' i →
  occupied self i ∧ ∀ id, id ∈ ids → id_to_point self !! id ≠ Some i.
Proof.
  intros Hrel (p & Hp & Hocc).
  destruct Hrel as (_ & _ & _ & _ & _ & _ & _ & Hpts). rewrite Hpts in Hp.
  destruct (decide (Exists (λ id, id_to_point self !! id = Some i) ids)) as [Hex|Hnex].
  - injection Hp as <-. by rewrite is_free_sentinel in Hocc.
  - split; [by exists p|]. intros id Hin Hid. apply Hnex, Exists_exists. by exists id.
Qed.

Lemma process_set_bound_if_occupied session_id x y x_vel y_vel accel self self' :
  wf self → bound_if_occupied self →
  process_set session_id x y x_vel y_vel accel self = Some self' →
  bound_if_occupied self'.
Proof.
  intros Hwf Hinv Hrun j (p & Hp & Hocc).
  destruct (process_set_cases session_id x y x_vel y_vel accel self Hwf)
    as [(i & Hid & Hi & Heq)|[(i & Hid & Hi & _ & _ & Heq)|(Hid & _ & Heq)]];
    rewrite Heq in Hrun; injection Hrun as <-; simpl in *.
  - destruct (decide (j = i)) as [->|Hne]; [by exists session_id|].
    rewrite list_lookup_insert_ne in Hp by done. apply Hinv. by exists p.
  - destruct (decide (j = i)) as [->|Hne].
    + exists session_id. by rewrite lookup_insert_eq.
    + rewrite list_lookup_insert_ne in Hp by done.
      destruct (Hinv j) as [d Hd]; [by exists p|]. exists d.
      rewrite lookup_insert_ne; [done|]. congruence.
  - destruct (decide (j = 0)) as [->|Hne].
    + exists session_id. by rewrite lookup_insert_eq.
    + rewrite list_lookup_insert_ne in Hp by done.
      destruct (Hinv j) as [d Hd]; [by exists p|]. exists d.
      rewrite lookup_insert_ne; [done|]. congruence.
Qed.

Lemma process_alive_bound_if_occupied new_active_ids self self' :
  wf self → bound_if_occupied self →
  process_alive new_active_ids self = Some self' →
  bound_if_occupied self'.
Proof.
  intros Hwf Hinv Hrun j Hocc.
  destruct (process_alive_released new_active_ids self Hwf) as (self0 & Hrel & Heq).
  rewrite Heq in Hrun. injection Hrun as <-.
  assert (occupied self0 j) as Hocc0 by done.
  destruct (released_occupied _ _ _ _ Hrel Hocc0) as (Hold & Hkept).
  destruct (Hinv j Hold) as [d Hd]. exists d. simpl.
  rewrite (released_binding_keep _ _ _ d Hrel); [done|].
  intros Hin. by apply (Hkept d).
Qed.

Lemma apply_event_bound_if_occupied ev self self' :
  wf self → bound_if_occupied self →
  apply_event ev self = Some self' → bound_if_occupied self'.
Proof.
  intros Hwf Hinv Hrun. destruct ev as [id x y vx vy a|ids|t]; simpl in Hrun.
  - by eapply process_set_bound_if_occupied.
  - by eapply process_alive_bound_if_occupied.
  - destruct (after_boundary_engine t self) as (_ & Hb & Hp & _).
    injection Hrun as <-.
    intros j (p & Hj & Hocc). rewrite Hb. apply Hinv. exists p. by rewrite <- Hp.
Qed.

Lemma run_bound_if_occupied evs self self' :
  wf self → bound_if_occupied self →
  run evs self = Some self' → bound_if_occupied self'.
Proof.
  revert self. induction evs as [|ev evs IH]; intros self Hwf Hinv Hrun; simpl in Hrun.
  - by injection Hrun as <-.
  - destruct (apply_event_wf ev self Hwf) as (self1 & Hs1 & Hwf1).
    rewrite Hs1 in Hrun. simpl in Hrun.
    refine (IH self1 Hwf1 _ Hrun).
    exact (apply_event_bound_if_occupied ev self self1 Hwf Hinv Hs1).
Qed.

Lemma init_bound_if_occupied now : bound_if_occupied (init now).
Proof.
  intros i (p & Hp & Hocc).
  change (replicate 20 sentinel !! i = Some p) in Hp.
  apply lookup_replicate in Hp as [-> _]. by rewrite is_free_sentinel in Hocc.
Qed.

(** ** Overflow *)

Lemma run_init_invariant evs now self :
  run evs (init now) = Some self → wf self ∧ bound_if_occupied self.
Proof.
  intros Hrun. split.
  - destruct (run_init_wf evs now) as (self' & Hrun' & Hwf). congruence.
  - eapply run_bound_if_occupied; [apply wf_init_any|apply init_bound_if_occupied|done].
Qed.

(** C1. In a state reached from the initial one in which every slot is
    occupied, an update for an identifier without a binding is not rejected:
    the new record is written into slot 0, the identifier is bound to slot 0,
    and the binding map changes in no other entry, so that an identifier
    [displaced] that was bound to slot 0 still is: two identifiers are bound
    to slot 0 afterwards. *)
Theorem overflow_reassigns_slot_0 evs now self session_id x y x_vel y_vel accel :
  run evs (init now) = Some self →
  id_to_point self !! session_id = None →
  all_occupied self = true →
  ∃ self' displaced,
    process_set session_id x y x_vel y_vel accel self = Some self' ∧
    points self' = <[0 := record x y x_vel y_vel accel]> (points self) ∧
    points self' !! 0 = Some (record x y x_vel y_vel accel) ∧
    id_to_point self' = <[session_id := 0]> (id_to_point self) ∧
    id_to_point self' !! session_id = Some 0 ∧
    displaced ≠ session_id ∧
    id_to_point self !! displaced = Some 0 ∧
    id_to_point self' !! displaced = Some 0.
Proof.
  intros Hrun Hid Hfull. destruct (run_init_invariant _ _ _ Hrun) as (Hwf & Hinv).
  pose proof Hwf as (Hlen & Hpos & Hbind).
  destruct (lookup_lt_is_Some_2 (points self) 0) as [p0 Hp0]; [lia|].
  assert (is_free p0 = false) as Hocc0.
  { by apply (proj1 (all_occupied_lookup self) Hfull 0). }
  destruct (Hinv 0) as [d Hd]; [by exists p0|].
  assert (d ≠ session_id) as Hne by congruence.
  destruct (process_set_cases session_id x y x_vel y_vel accel self Hwf)
    as [(i & Hid' & _)|[(i & _ & _ & (p & Hp & Hfree) & _)|(_ & _ & Heq)]].
  - congruence.
  - rewrite (proj1 (all_occupied_lookup self) Hfull i p Hp) in Hfree. done.
  - exists (assigned session_id 0 (record x y x_vel y_vel accel) self), d.
    split; [done|]. simpl. split; [done|]. split.
    { apply list_lookup_insert_eq. lia. }
    split; [done|]. split; [by rewrite lookup_insert_eq|].
    split; [done|]. split; [done|]. by rewrite lookup_insert_ne.
Qed.

Lemma overflow_reassigns_slot_0_witness :
  run fill_table (init 0) = Some full_table ∧
  id_to_point full_table !! 99%Z = None ∧
  all_occupied full_table = true ∧
  ∃ self' displaced,
    process_set 99 0.25 0.75 0 0 0 full_table = Some self' ∧
    points self' = <[0 := record 0.25 0.75 0 0 0]> (points full_table) ∧
    points self' !! 0 = Some (record 0.25 0.75 0 0 0) ∧
    id_to_point self' = <[99%Z := 0]> (id_to_point full_table) ∧
    id_to_point self' !! 99%Z = Some 0 ∧
    displaced ≠ 99%Z ∧
    id_to_point full_table !! displaced = Some 0 ∧
    id_to_point self' !! displaced = Some 0.
Proof.
  assert (run fill_table (init 0) = Some full_table) as Hrun
    by (vm_compute; reflexivity).
  assert (id_to_point full_table !! 99%Z = None) as Hid
    by (vm_compute; reflexivity).
  assert (all_occupied full_table = true) as Hfull
    by (vm_compute; reflexivity).
  split; [exact Hrun|]. split; [exact Hid|]. split; [exact Hfull|].
  exact (overflow_reassigns_slot_0 fill_table 0 full_table 99 0.25 0.75 0 0 0
           Hrun Hid Hfull).
Defined.

(** ** The bijection between bound identifiers and occupied slots *)

Lemma process_set_bijection session_id x y x_vel y_vel accel self self' :
  wf self → bijection self →
  overflows (Update session_id x y x_vel y_vel accel) self = false →
  PrimFloat.eqb x (-1)%float = false →
  process_set session_id x y x_vel y_vel accel self = Some self' →
  bijection self'.
Proof.
  intros Hwf (Hocc & Hinj & Hsurj) Hover Hx Hrun.
  assert (bound_if_occupied self') as Hsurj'.
  { by eapply process_set_bound_if_occupied. }
  pose proof Hwf as (Hlen & Hpos & Hbind).
  destruct (process_set_cases session_id x y x_vel y_vel accel self Hwf)
    as [(i & Hid & Hi & Heq)|[(i & Hid & Hi & (p & Hp & Hfree) & _ & Heq)
       |(Hid & Hfull & Heq)]].
  - rewrite Heq in Hrun. injection Hrun as <-.
    split; [|split; [exact Hinj|exact Hsurj']].
    intros d j Hd. simpl in *. destruct (decide (j = i)) as [->|Hne].
    + exists (record x y x_vel y_vel accel). split; [|by rewrite is_free_record].
      apply list_lookup_insert_eq. lia.
    + destruct (Hocc d j Hd) as (q & Hq & Hqocc). exists q. simpl.
      by rewrite list_lookup_insert_ne.
  - rewrite Heq in Hrun. injection Hrun as <-.
    assert (∀ d, id_to_point self !! d = Some i → False) as Hfresh.
    { intros d Hd. by apply (occupied_not_free self i p Hp Hfree), (Hocc d). }
    split; [|split; [|exact Hsurj']]; simpl.
    + intros d j Hd. destruct (decide (d = session_id)) as [->|Hne].
      * rewrite lookup_insert_eq in Hd. injection Hd as <-.
        exists (record x y x_vel y_vel accel). split; [|by rewrite is_free_record].
        apply list_lookup_insert_eq. lia.
      * rewrite lookup_insert_ne in Hd by done.
        destruct (Hocc d j Hd) as (q & Hq & Hqocc). exists q. split; [|done].
        simpl. rewrite list_lookup_insert_ne; [done|]. intros <-. by apply (Hfresh d).
    + intros a b j Ha Hb.
      destruct (decide (a = session_id)) as [->|Hna],
               (decide (b = session_id)) as [->|Hnb]; [done| | |].
      * rewrite lookup_insert_eq in Ha. injection Ha as <-.
        rewrite lookup_insert_ne in Hb by done. by destruct (Hfresh b).
      * rewrite lookup_insert_eq in Hb. injection Hb as <-.
        rewrite lookup_insert_ne in Ha by done. by destruct (Hfresh a).
      * rewrite lookup_insert_ne in Ha by done.
        rewrite lookup_insert_ne in Hb by done. by apply (Hinj a b j).
  - simpl in Hover. rewrite Hfull, bool_decide_eq_true_2 in Hover; done.
Qed.

Lemma process_alive_bijection new_active_ids self self' :
  wf self → bijection self →
  process_alive new_active_ids self = Some self' → bijection self'.
Proof.
  intros Hwf (Hocc & Hinj & Hsurj) Hrun.
  assert (bound_if_occupied self') as Hsurj'.
  { by eapply process_alive_bound_if_occupied. }
  destruct (process_alive_released new_active_ids self Hwf) as (self0 & Hrel & Heq).
  rewrite Heq in Hrun. injection Hrun as <-.
  pose proof Hrel as (_ & _ & _ & _ & _ & _ & Hb & _).
  assert (∀ d j, id_to_point self0 !! d = Some j →
            (d ∉ elements (active_ids self ∖ new_active_ids)) ∧
            id_to_point self !! d = Some j) as Hsub.
  { intros d j Hd. rewrite Hb in Hd. by case_decide. }
  split; [|split; [|exact Hsurj']]; simpl.
  - intros d j Hd. destruct (Hsub d j Hd) as (Hkept & Hold).
    destruct (Hocc d j Hold) as (q & Hq & Hqocc). exists q. split; [|done].
    simpl. rewrite (released_lookup_keep _ _ _ j Hrel); [done|].
    intros r Hr Hrj. by rewrite (Hinj r d j Hrj Hold) in Hr.
  - intros a b j Ha Hb'. destruct (Hsub a j Ha) as (_ & Ha0).
    destruct (Hsub b j Hb') as (_ & Hb0). by apply (Hinj a b j).
Qed.

Lemma apply_event_bijection ev self self' :
  wf self → bijection self →
  overflows ev self = false → carries_minus_one ev = false →
  apply_event ev self = Some self' → bijection self'.
Proof.
  intros Hwf Hbij Hover Hx Hrun. destruct ev as [id x y vx vy a|ids|t]; simpl in Hrun.
  - by eapply process_set_bijection.
  - by eapply process_alive_bijection.
  - destruct (after_boundary_engine t self) as (_ & Hb & Hp & _).
    injection Hrun as <-.
    unfold bijection, occupied in *. by rewrite Hb, Hp.
Qed.

Lemma run_bijection evs self self' :
  wf self → bijection self →
  no_overflow evs self = true →
  forallb (λ ev, negb (carries_minus_one ev)) evs = true →
  run evs self = Some self' → bijection self'.
Proof.
  revert self. induction evs as [|ev evs IH]; intros self Hwf Hbij Hover Hx Hrun;
    simpl in *.
  - by injection Hrun as <-.
  - destruct (apply_event_wf ev self Hwf) as (self1 & Hs1 & Hwf1).
    rewrite Hs1 in Hrun, Hover. simpl in Hrun.
    apply andb_true_iff in Hover as [Hov Hover], Hx as [Hx0 Hx].
    apply negb_true_iff in Hov, Hx0.
    refine (IH self1 Hwf1 _ Hover Hx Hrun).
    exact (apply_event_bijection ev self self1 Hwf Hbij Hov Hx0 Hs1).
Qed.

Lemma init_bijection now : bijection (init now).
Proof.
  split; [|split; [|apply init_bound_if_occupied]].
  - intros id i Hid. by destruct (lookup_empty_Some (M := gmap Z) id i).
  - intros a b i Ha. by destruct (lookup_empty_Some (M := gmap Z) a i).
Qed.

(** C2, as the code has it. In every state reached from the initial one by
    update, liveness and frame-boundary events of which no update took the
    overflow path and no update carried [x == -1], the binding map is a
    bijection between the bound identifiers and the occupied slots: a bound
    identifier points at an occupied slot, no two identifiers are bound to
    one slot, and every occupied slot has an identifier bound to it. *)
Theorem bijection_invariant evs now self :
  no_overflow evs (init now) = true →
  forallb (λ ev, negb (carries_minus_one ev)) evs = true →
  run evs (init now) = Some self →
  bijection self.
Proof.
  intros Hover Hx Hrun.
  exact (run_bijection evs (init now) self (wf_init_any now) (init_bijection now)
           Hover Hx Hrun).
Qed.

(** C2 fails as stated: the stream [minus_one_stream] never fills the table
    and binds the identifiers 1 and 2 to slot 0. *)
Lemma bijection_broken_by_minus_one :
  no_overflow minus_one_stream (init 0) = true ∧
  ∃ self, run minus_one_stream (init 0) = Some self ∧
    all_occupied self = false ∧
    id_to_point self !! 1%Z = Some 0 ∧
    id_to_point self !! 2%Z = Some 0 ∧
    ¬ bijection self.
Proof.
  split; [vm_compute; reflexivity|].
  eexists. split; [vm_compute; reflexivity|].
  split; [vm_compute; reflexivity|].
  split; [vm_compute; reflexivity|].
  split; [vm_compute; reflexivity|].
  intros (_ & Hinj & _).
  assert (1%Z = 2%Z) as Heq; [|done].
  apply (Hinj 1%Z 2%Z 0); vm_compute; reflexivity.
Qed.

Lemma bijection_invariant_witness :
  no_overflow regular_stream (init 0) = true ∧
  forallb (λ ev, negb (carries_minus_one ev)) regular_stream = true ∧
  run regular_stream (init 0) = Some regular_state ∧
  bijection regular_state.
Proof.
  assert (no_overflow regular_stream (init 0) = true) as Hover
    by (vm_compute; reflexivity).
  assert (forallb (λ ev, negb (carries_minus_one ev)) regular_stream = true) as Hx
    by (vm_compute; reflexivity).
  assert (run regular_stream (init 0) = Some regular_state) as Hrun
    by (vm_compute; reflexivity).
  split; [exact Hover|]. split; [exact Hx|]. split; [exact Hrun|].
  exact (bijection_invariant regular_stream 0 regular_state Hover Hx Hrun).
Defined.

(** ** Liveness removal *)

(** C3, as the code has it. A liveness announcement with the set
    [new_active_ids] raises nothing; afterwards the stored active set is
    [new_active_ids]; every identifier of the old active set that is not in
    [new_active_ids] and has a binding has its slot reset to
    [(-1, -1, 0, 0, 0)] and its binding deleted; an identifier of
    [new_active_ids] keeps its binding, and its slot is unchanged unless a
    removed identifier is bound to the same slot. *)
Theorem liveness_removal new_active_ids self :
  wf self →
  ∃ self', process_alive new_active_ids self = Some self' ∧
    active_ids self' = new_active_ids ∧
    (∀ id i, id ∈ active_ids self → id ∉ new_active_ids →
       id_to_point self !! id = Some i →
       points self' !! i = Some sentinel ∧ id_to_point self' !! id = None) ∧
    (∀ id i, id ∈ new_active_ids → id_to_point self !! id = Some i →
       id_to_point self' !! id = Some i ∧
       ((∀ r, r ∈ active_ids self → r ∉ new_active_ids →
           id_to_point self !! r ≠ Some i) →
        points self' !! i = points self !! i)).
Proof.
  intros Hwf.
  destruct (process_alive_released new_active_ids self Hwf) as (self0 & Hrel & Heq).
  eexists. split; [exact Heq|]. simpl. split; [done|]. split.
  - intros id i Hact Hnew Hid.
    apply (released_lookup_reset _ _ _ id i Hrel); [|done].
    apply elem_of_elements, elem_of_difference. by split.
  - intros id i Hnew Hid. split.
    + rewrite (released_binding_keep _ _ _ id Hrel); [done|].
      rewrite elem_of_elements, elem_of_difference. by intros [_ ?].
    + intros Hno. apply (released_lookup_keep _ _ _ i Hrel).
      intros r Hr. apply elem_of_elements, elem_of_difference in Hr as [? ?].
      by apply Hno.
Qed.

Lemma liveness_removal_witness :
  wf three_bound ∧
  ∃ self', process_alive {[1%Z; 3%Z]} three_bound = Some self' ∧
    active_ids self' = {[1%Z; 3%Z]} ∧
    points self' !! 1 = Some sentinel ∧
    id_to_point self' !! 2%Z = None ∧
    id_to_point self' !! 1%Z = Some 0 ∧
    id_to_point self' !! 3%Z = Some 2 ∧
    points self' !! 0 = points three_bound !! 0 ∧
    points self' !! 2 = points three_bound !! 2.
Proof.
  assert (wf three_bound) as Hwf by by_compute.
  split; [exact Hwf|].
  destruct (liveness_removal {[1%Z; 3%Z]} three_bound Hwf)
    as (self' & Hrun & Hact & Hrem & Hkeep).
  assert (∀ r, r ∈ active_ids three_bound → r ∉ ({[1%Z; 3%Z]} : gset Z) → r = 2%Z)
    as Honly.
  { intros r Hr Hnr. simpl in Hr.
    rewrite !elem_of_union, !elem_of_singleton in Hr.
    rewrite elem_of_union, !elem_of_singleton in Hnr.
    destruct Hr as [[->| ->]| ->]; [destruct Hnr; by left|done|destruct Hnr; by right]. }
  exists self'. split; [exact Hrun|]. split; [exact Hact|].
  destruct (Hrem 2%Z 1) as [Hslot Hgone]; [by_compute|by_compute|reflexivity|].
  destruct (Hkeep 1%Z 0) as [Hb1 Hs0]; [by_compute|reflexivity|].
  destruct (Hkeep 3%Z 2) as [Hb3 Hs2]; [by_compute|reflexivity|].
  split; [exact Hslot|]. split; [exact Hgone|].
  split; [exact Hb1|]. split; [exact Hb3|]. split.
  - apply Hs0. intros r Hr Hnr. rewrite (Honly r Hr Hnr). discriminate.
  - apply Hs2. intros r Hr Hnr. rewrite (Honly r Hr Hnr). discriminate.
Defined.

(** C3 fails as stated where two identifiers share a slot: after
    [shared_slot_stream] the identifiers 1 and 2 are both bound to slot 0, and
    the announcement [{2}] resets slot 0 although identifier 2 remains. *)
Lemma liveness_resets_shared_slot :
  ∃ self self',
    run shared_slot_stream (init 0) = Some self ∧
    active_ids self = {[1%Z; 2%Z]} ∧
    id_to_point self !! 2%Z = Some 0 ∧
    points self !! 0 = Some (record 0.25 0.75 0 0 0) ∧
    process_alive {[2%Z]} self = Some self' ∧
    id_to_point self' !! 2%Z = Some 0 ∧
    points self' !! 0 = Some sentinel ∧
    points self' !! 0 ≠ points self !! 0.
Proof.
  eexists. eexists.
  split; [vm_compute; reflexivity|].
  split; [vm_compute; reflexivity|].
  split; [vm_compute; reflexivity|].
  split; [vm_compute; reflexivity|].
  split; [vm_compute; reflexivity|].
  split; [vm_compute; reflexivity|].
  split; [vm_compute; reflexivity|].
  vm_compute. discriminate.
Qed.

(** ** First-free allocation *)

Lemma process_set_least_free session_id x y x_vel y_vel accel self i p :
  wf self →
  id_to_point self !! session_id = None →
  points self !! i = Some p → is_free p = true →
  (∀ j, j < i → occupied self j) →
  process_set session_id x y x_vel y_vel accel self
  = Some (assigned session_id i (record x y x_vel y_vel accel) self).
Proof.
  intros Hwf Hid Hp Hfree Hbelow.
  destruct (process_set_cases session_id x y x_vel y_vel accel self Hwf)
    as [(i' & Hid' & _)|[(i' & _ & _ & (p' & Hp' & Hfree') & Hbelow' & Heq)
       |(_ & Hfull & _)]].
  - congruence.
  - destruct (Nat.lt_trichotomy i i') as [Hlt|[->|Hgt]]; [|done|].
    + by destruct (occupied_not_free self i p Hp Hfree (Hbelow' i Hlt)).
    + by destruct (occupied_not_free self i' p' Hp' Hfree' (Hbelow i' Hgt)).
  - rewrite (proj1 (all_occupied_lookup self) Hfull i p Hp) in Hfree. done.
Qed.

(** C6, as the code has it. In a well-formed state, an update for an
    identifier without a binding binds it to the least free slot, when there
    is one, and writes its record there. Hence, when every slot is free, three
    updates for three distinct identifiers without bindings, the first two
    with [x] other than [-1], bind them to the slots 0, 1 and 2 in arrival
    order, whatever the numeric values of the identifiers. *)
Theorem first_free_allocation_order self :
  wf self →
  (∀ session_id x y x_vel y_vel accel i p,
     id_to_point self !! session_id = None →
     points self !! i = Some p → is_free p = true →
     (∀ j, j < i → occupied self j) →
     ∃ self', process_set session_id x y x_vel y_vel accel self = Some self' ∧
       id_to_point self' !! session_id = Some i ∧
       points self' !! i = Some (record x y x_vel y_vel accel)) ∧
  (∀ a xa ya vxa vya acca b xb yb vxb vyb accb c xc yc vxc vyc accc,
     3 ≤ num_points self → all_free self = true →
     a ≠ b → a ≠ c → b ≠ c →
     id_to_point self !! a = None →
     id_to_point self !! b = None →
     id_to_point self !! c = None →
     PrimFloat.eqb xa (-1)%float = false →
     PrimFloat.eqb xb (-1)%float = false →
     ∃ self3,
       run [Update a xa ya vxa vya acca; Update b xb yb vxb vyb accb;
            Update c xc yc vxc vyc accc] self = Some self3 ∧
       id_to_point self3 !! a = Some 0 ∧
       id_to_point self3 !! b = Some 1 ∧
       id_to_point self3 !! c = Some 2).
Proof.
  intros Hwf. split.
  - intros session_id x y x_vel y_vel accel i p Hid Hp Hfree Hbelow.
    rewrite (process_set_least_free _ _ _ _ _ _ _ i p) by done.
    eexists. split; [done|]. simpl. split; [by rewrite lookup_insert_eq|].
    apply list_lookup_insert_eq. by apply lookup_lt_Some in Hp.
  - intros a xa ya vxa vya acca b xb yb vxb vyb accb c xc yc vxc vyc accc
      Hn Hallfree Hab Hac Hbc Ha Hb Hc Hxa Hxb.
    pose proof Hwf as (Hlen & Hpos & Hbind).
    pose proof (proj1 (all_free_lookup self) Hallfree) as Hfree.
    destruct (lookup_lt_is_Some_2 (points self) 0) as [p0 Hp0]; [lia|].
    destruct (lookup_lt_is_Some_2 (points self) 1) as [p1 Hp1]; [lia|].
    destruct (lookup_lt_is_Some_2 (points self) 2) as [p2 Hp2]; [lia|].
    set (ra := record xa ya vxa vya acca).
    set (rb := record xb yb vxb vyb accb).
    set (rc := record xc yc vxc vyc accc).
    set (self1 := assigned a 0 ra self).
    set (self2 := assigned b 1 rb self1).
    assert (wf self1) as Hwf1 by (apply wf_assigned; [lia|done]).
    assert (wf self2) as Hwf2 by (apply wf_assigned; [simpl; lia|done]).
    assert (occupied self1 0) as Hocc0.
    { exists ra. split; [|exact Hxa].
      apply list_lookup_insert_eq. lia. }
    assert (occupied self2 0) as Hocc0'.
    { destruct Hocc0 as (q & Hq & Hqocc). exists q. split; [|done].
      simpl. by rewrite list_lookup_insert_ne. }
    assert (occupied self2 1) as Hocc1.
    { exists rb. split; [|exact Hxb].
      apply list_lookup_insert_eq. simpl. rewrite length_insert. lia. }
    simpl.
    rewrite (process_set_least_free a _ _ _ _ _ self 0 p0); [|done..| |intros j Hj; lia].
    2: by apply (Hfree 0).
    simpl. fold ra. fold self1.
    rewrite (process_set_least_free b _ _ _ _ _ self1 1 p1); [|done| | | |].
    2: { simpl. by rewrite lookup_insert_ne. }
    2: { simpl. by rewrite list_lookup_insert_ne. }
    2: by apply (Hfree 1).
    2: { intros j Hj. by replace j with 0 by lia. }
    simpl. fold rb. fold self2.
    rewrite (process_set_least_free c _ _ _ _ _ self2 2 p2); [|done| | | |].
    2: { simpl. by rewrite !lookup_insert_ne. }
    2: { simpl. by rewrite !list_lookup_insert_ne. }
    2: by apply (Hfree 2).
    2: { intros j Hj. destruct j as [|[|j]]; [done|done|lia]. }
    simpl. eexists. split; [done|]. simpl.
    split.
    { rewrite lookup_insert_ne by done. rewrite lookup_insert_ne by done.
      by rewrite lookup_insert_eq. }
    split; [|by rewrite lookup_insert_eq].
    rewrite lookup_insert_ne by done. by rewrite lookup_insert_eq.
Qed.

Lemma first_free_allocation_order_witness :
  wf (init 0) ∧
  ∃ self3,
    run [Update 7 0.5 0.5 0 0 0; Update 3 0.25 0.5 0 0 0; Update 9 (-1) 0.5 0 0 0]
      (init 0) = Some self3 ∧
    id_to_point self3 !! 7%Z = Some 0 ∧
    id_to_point self3 !! 3%Z = Some 1 ∧
    id_to_point self3 !! 9%Z = Some 2.
Proof.
  assert (wf (init 0)) as Hwf by by_compute.
  split; [exact Hwf|].
  apply (proj2 (first_free_allocation_order (init 0) Hwf));
    [simpl; lia|reflexivity|done|done|done|reflexivity..].
Defined.

(** C6 fails as stated when an update carries [x == -1]: its slot stays
    free, and the next new identifier is given the same slot. *)
Lemma allocation_order_broken_by_minus_one :
  all_free (init 0) = true ∧
  ∃ self3, run minus_one_first (init 0) = Some self3 ∧
    id_to_point self3 !! 7%Z = Some 0 ∧
    id_to_point self3 !! 3%Z = Some 0 ∧
    id_to_point self3 !! 9%Z = Some 1 ∧
    id_to_point self3 !! 3%Z ≠ Some 1 ∧
    id_to_point self3 !! 9%Z ≠ Some 2.
Proof.
  split; [reflexivity|]. eexists.
  split; [vm_compute; reflexivity|].
  split; [vm_compute; reflexivity|].
  split; [vm_compute; reflexivity|].
  split; [vm_compute; reflexivity|].
  split; vm_compute; discriminate.
Qed.

(** ** Repeated updates *)

(** C7. In a well-formed state an update raises nothing, and applying the
    same update once more leaves the whole state, the slot table included, as
    the first application left it. *)
Theorem update_idempotent session_id x y x_vel y_vel accel self :
  wf self →
  ∃ self', process_set session_id x y x_vel y_vel accel self = Some self' ∧
    process_set session_id x y x_vel y_vel accel self' = Some self'.
Proof.
  intros Hwf.
  destruct (process_set_wf session_id x y x_vel y_vel accel self Hwf)
    as (self' & Hrun & Hwf').
  exists self'. split; [done|].
  assert (∃ i, id_to_point self' !! session_id = Some i ∧
            points self' = <[i := record x y x_vel y_vel accel]> (points self))
    as (i & Hi & Hpts).
  { destruct (process_set_cases session_id x y x_vel y_vel accel self Hwf)
      as [(i & Hid & _ & Heq)|[(i & _ & _ & _ & _ & Heq)|(_ & _ & Heq)]];
      rewrite Heq in Hrun; injection Hrun as <-; simpl.
    - by exists i.
    - exists i. by rewrite lookup_insert_eq.
    - exists 0. by rewrite lookup_insert_eq. }
  rewrite (process_set_refresh _ _ _ _ _ _ _ i) by done.
  rewrite Hpts, list_insert_insert_eq, <- Hpts. by destruct self'.
Qed.

Lemma update_idempotent_witness :
  wf full_table ∧
  ∃ self', process_set 99 0.25 0.75 0 0 0 full_table = Some self' ∧
    process_set 99 0.25 0.75 0 0 0 self' = Some self'.
Proof.
  assert (wf full_table) as Hwf by by_compute.
  split; [exact Hwf|].
  exact (update_idempotent 99 0.25 0.75 0 0 0 full_table Hwf).
Defined.

(** ** What an update touches *)

(** C9, as the code has it. An update changes the slot table and the binding
    map, and nothing of the clock, the interval, the table size and the
    client. On the refresh path the active set is unchanged; on the free-slot
    and overflow paths [assign_new_id] adds the new identifier to it. *)
Theorem update_frame session_id x y x_vel y_vel accel self :
  wf self →
  ∃ self', process_set session_id x y x_vel y_vel accel self = Some self' ∧
    num_points self' = num_points self ∧
    last_send_time self' = last_send_time self ∧
    send_interval self' = send_interval self ∧
    pd_client self' = pd_client self ∧
    (is_Some (id_to_point self !! session_id) → active_ids self' = active_ids self) ∧
    (id_to_point self !! session_id = None →
       active_ids self' = {[session_id]} ∪ active_ids self).
Proof.
  intros Hwf.
  destruct (process_set_cases session_id x y x_vel y_vel accel self Hwf)
    as [(i & Hid & _ & Heq)|[(i & Hid & _ & _ & _ & Heq)|(Hid & _ & Heq)]];
    rewrite Heq; eexists; (split; [done|]); simpl; repeat split; try done.
  - intros Hnone. congruence.
  - intros [j Hj]. congruence.
  - intros [j Hj]. congruence.
Qed.

Lemma update_frame_witness :
  wf (init 0) ∧
  ∃ self', process_set 5 0.5 0.5 0 0 0 (init 0) = Some self' ∧
    num_points self' = 20 ∧
    last_send_time self' = 0%Q ∧
    send_interval self' = (1 # 100)%Q ∧
    pd_client self' = [] ∧
    active_ids self' = {[5%Z]} ∪ ∅.
Proof.
  assert (wf (init 0)) as Hwf by by_compute.
  split; [exact Hwf|].
  destruct (update_frame 5 0.5 0.5 0 0 0 (init 0) Hwf)
    as (self' & Hrun & Hn & Hlast & Hint & Hpd & _ & Hact).
  exists self'. split; [exact Hrun|]. split; [exact Hn|]. split; [exact Hlast|].
  split; [exact Hint|]. split; [exact Hpd|]. exact (Hact eq_refl).
Defined.

(** C9 fails as stated: on the free-slot path and on the overflow path the
    active set gains the new identifier. *)
Lemma update_extends_active_set :
  (∃ self', process_set 5 0.5 0.5 0 0 0 (init 0) = Some self' ∧
     (5%Z ∉ active_ids (init 0)) ∧ (5%Z ∈ active_ids self') ∧
     active_ids self' ≠ active_ids (init 0)) ∧
  (∃ self', process_set 99 0.5 0.5 0 0 0 full_table = Some self' ∧
     all_occupied full_table = true ∧
     (99%Z ∉ active_ids full_table) ∧ (99%Z ∈ active_ids self') ∧
     active_ids self' ≠ active_ids full_table).
Proof.
  split.
  - eexists. split; [vm_compute; reflexivity|].
    assert (5%Z ∉ active_ids (init 0)) as Hout by by_compute.
    split; [exact Hout|]. split; [by_compute|].
    intros Heq. apply Hout. rewrite <- Heq. by_compute.
  - eexists. split; [vm_compute; reflexivity|].
    split; [vm_compute; reflexivity|].
    assert (99%Z ∉ active_ids full_table) as Hout by by_compute.
    split; [exact Hout|]. split; [by_compute|].
    intros Heq. apply Hout. rewrite <- Heq. by_compute.
Qed.

(** ** The sentinel as a coordinate *)

(** C10. After [shared_slot_stream] two identifiers are bound to slot 0
    although the table was never full: identifier 1 is bound to slot 0, its
    next update writes [x = -1] into slot 0, the search then takes slot 0 for
    free and gives it to identifier 2, and the binding of identifier 1
    stays. *)
Theorem sentinel_update_shares_slot :
  no_overflow shared_slot_stream (init 0) = true ∧
  ∃ self1 self2 self3,
    process_set 1 0.5 0.5 0 0 0 (init 0) = Some self1 ∧
    id_to_point self1 !! 1%Z = Some 0 ∧
    process_set 1 (-1) 0.5 0 0 0 self1 = Some self2 ∧
    points self2 !! 0 = Some (record (-1) 0.5 0 0 0) ∧
    first_free (points self2) (seq 0 (num_points self2)) = Some (Some 0) ∧
    id_to_point self2 !! 2%Z = None ∧
    process_set 2 0.25 0.75 0 0 0 self2 = Some self3 ∧
    run shared_slot_stream (init 0) = Some self3 ∧
    id_to_point self3 !! 1%Z = Some 0 ∧
    id_to_point self3 !! 2%Z = Some 0.
Proof.
  split; [vm_compute; reflexivity|].
  eexists. eexists. eexists.
  repeat (split; [vm_compute; reflexivity|]).
  vm_compute; reflexivity.
Qed.

(** ** The message handler *)

Lemma handle_set py_int py_float current_time self a1 a2 a3 a4 a5 a6 rest
    session_id x y x_vel y_vel accel :
  py_int a1 = Some session_id →
  py_float a2 = Some x → py_float a3 = Some y →
  py_float a4 = Some x_vel → py_float a5 = Some y_vel →
  py_float a6 = Some accel →
  handle_tuio_message py_int py_float current_time
    (OscStr "set" :: a1 :: a2 :: a3 :: a4 :: a5 :: a6 :: rest) self
  = process_set session_id x y x_vel y_vel accel self.
Proof.
  intros H1 H2 H3 H4 H5 H6. unfold handle_tuio_message.
  change (eq_str (OscStr "set") "set") with true. cbv iota.
  rewrite decide_False by (simpl; lia). simpl.
  by rewrite H1, H2, H3, H4, H5, H6.
Qed.

Lemma handle_alive py_int py_float current_time self rest ids :
  mapM py_int rest = Some ids →
  handle_tuio_message py_int py_float current_time (OscStr "alive" :: rest) self
  = process_alive (list_to_set ids) self.
Proof.
  intros Hids. unfold handle_tuio_message.
  change (eq_str (OscStr "alive") "set") with false.
  change (eq_str (OscStr "alive") "alive") with true. cbv iota.
  change (drop 1 (OscStr "alive" :: rest)) with rest. by rewrite Hids.
Qed.

Lemma handle_fseq py_int py_float current_time self rest :
  handle_tuio_message py_int py_float current_time (OscStr "fseq" :: rest) self
  = frame_boundary current_time self.
Proof. reflexivity. Qed.

(** C8. A [set] message with fewer than six fields after the command is
    ignored: the handler raises nothing and returns the state it was given,
    whatever the conversions [int] and [float] would do on the fields. *)
Theorem short_set_ignored py_int py_float current_time command fields self :
  eq_str command "set" = true →
  length fields < 6 →
  handle_tuio_message py_int py_float current_time (command :: fields) self
  = Some self.
Proof.
  intros Hset Hshort. unfold handle_tuio_message. rewrite Hset.
  by rewrite decide_True by (simpl; lia).
Qed.

Lemma short_set_ignored_witness :
  eq_str (OscStr "set") "set" = true ∧
  length [OscInt 5; OscFloat 0.5; OscFloat 0.25] < 6 ∧
  handle_tuio_message (λ _, None) (λ _, None) 3
    [OscStr "set"; OscInt 5; OscFloat 0.5; OscFloat 0.25] three_bound
  = Some three_bound.
Proof.
  assert (eq_str (OscStr "set") "set" = true) as Hset by reflexivity.
  assert (length [OscInt 5; OscFloat 0.5; OscFloat 0.25] < 6) as Hshort
    by (simpl; lia).
  split; [exact Hset|]. split; [exact Hshort|].
  exact (short_set_ignored (λ _, None) (λ _, None) 3 (OscStr "set")
           [OscInt 5; OscFloat 0.5; OscFloat 0.25] three_bound Hset Hshort).
Defined.

(** ** The publish gate *)

Lemma frame_boundary_publish current_time self msgs :
  wf self → all_encode self = true →
  (send_interval self <= current_time - last_send_time self)%Q →
  snapshot self = Some msgs →
  frame_boundary current_time self
  = Some (with_last_send_time current_time
            (with_pd_client (pd_client self ++ msgs) self)).
Proof.
  intros Hwf Henc Hle Hmsgs. unfold frame_boundary.
  apply Qle_bool_iff in Hle. rewrite Hle.
  rewrite (send_to_puredata_encodes self Hwf Henc). simpl.
  rewrite (snapshot_zip self Hwf) in Hmsgs. by injection Hmsgs as <-.
Qed.

Lemma frame_boundary_skip current_time self :
  (current_time - last_send_time self < send_interval self)%Q →
  frame_boundary current_time self = Some self.
Proof.
  intros Hlt. unfold frame_boundary.
  destruct (Qle_bool _ _) eqn:Hle; [|done].
  apply Qle_bool_iff in Hle. lra.
Qed.

(** C4, as the code has it. With the interval at 10 ms and a table of which
    the client can write every record, so that no send raises, a frame
    boundary at [t0], at least 10 ms after the last publish, publishes one
    snapshot of [num_points] messages and records [t0]; a boundary 5 ms later
    publishes nothing, and neither does a boundary 6 ms after the first:
    across the three boundaries exactly one publish occurs. A boundary 10 ms
    or more after the first publishes again. *)
Theorem publish_throttling self t0 :
  wf self →
  all_encode self = true →
  send_interval self = (1 # 100)%Q →
  (last_send_time self + (1 # 100) <= t0)%Q →
  ∃ msgs self1,
    snapshot self = Some msgs ∧ length msgs = num_points self ∧
    frame_boundary t0 self = Some self1 ∧
    pd_client self1 = pd_client self ++ msgs ∧
    last_send_time self1 = t0 ∧
    frame_boundary (t0 + (5 # 1000))%Q self1 = Some self1 ∧
    frame_boundary (t0 + (6 # 1000))%Q self1 = Some self1 ∧
    run [Boundary t0; Boundary (t0 + (5 # 1000))%Q; Boundary (t0 + (6 # 1000))%Q] self
    = Some self1 ∧
    (∀ t, (t0 + (1 # 100) <= t)%Q →
       ∃ self2, frame_boundary t self1 = Some self2 ∧
         pd_client self2 = pd_client self1 ++ msgs ∧
         last_send_time self2 = t).
Proof.
  intros Hwf Henc Hint Hlast.
  destruct (snapshot_wf self Hwf) as (msgs & Hmsgs & Hlen).
  set (self1 := with_last_send_time t0 (with_pd_client (pd_client self ++ msgs) self)).
  assert (wf self1) as Hwf1 by exact Hwf.
  assert (all_encode self1 = true) as Henc1 by exact Henc.
  assert (frame_boundary t0 self = Some self1) as H1.
  { apply frame_boundary_publish; [done|done| |done]. rewrite Hint. lra. }
  assert (frame_boundary (t0 + (5 # 1000))%Q self1 = Some self1) as H2.
  { apply frame_boundary_skip. simpl. rewrite Hint. lra. }
  assert (frame_boundary (t0 + (6 # 1000))%Q self1 = Some self1) as H3.
  { apply frame_boundary_skip. simpl. rewrite Hint. lra. }
  exists msgs, self1. split; [done|]. split; [done|]. split; [done|].
  split; [done|]. split; [done|]. split; [done|]. split; [done|]. split.
  - simpl. rewrite (frame_boundary_after _ _ _ H1).
    rewrite (frame_boundary_after _ _ _ H2). by rewrite (frame_boundary_after _ _ _ H3).
  - intros t Ht. eexists. split.
    + apply frame_boundary_publish; [done|done| |exact Hmsgs].
      simpl. rewrite Hint. lra.
    + by split.
Qed.

Lemma publish_throttling_witness :
  wf (init 0) ∧
  all_encode (init 0) = true ∧
  send_interval (init 0) = (1 # 100)%Q ∧
  (last_send_time (init 0) + (1 # 100) <= 1)%Q ∧
  ∃ msgs self1,
    snapshot (init 0) = Some msgs ∧ length msgs = 20 ∧
    frame_boundary 1 (init 0) = Some self1 ∧
    pd_client self1 = [] ++ msgs ∧
    last_send_time self1 = 1%Q ∧
    frame_boundary (1 + (5 # 1000))%Q self1 = Some self1 ∧
    frame_boundary (1 + (6 # 1000))%Q self1 = Some self1 ∧
    run [Boundary 1; Boundary (1 + (5 # 1000))%Q; Boundary (1 + (6 # 1000))%Q] (init 0)
    = Some self1 ∧
    (∀ t, (1 + (1 # 100) <= t)%Q →
       ∃ self2, frame_boundary t self1 = Some self2 ∧
         pd_client self2 = pd_client self1 ++ msgs ∧
         last_send_time self2 = t).
Proof.
  assert (wf (init 0)) as Hwf by by_compute.
  assert (all_encode (init 0) = true) as Henc by (vm_compute; reflexivity).
  assert (send_interval (init 0) = (1 # 100)%Q) as Hint by reflexivity.
  assert (last_send_time (init 0) + (1 # 100) <= 1)%Q as Hlast
    by (vm_compute; discriminate).
  split; [exact Hwf|]. split; [exact Henc|]. split; [exact Hint|].
  split; [exact Hlast|].
  exact (publish_throttling (init 0) 1 Hwf Henc Hint Hlast).
Defined.

(** C4 fails as stated. With the last publish at time 0, boundaries at 0,
    5 ms and 6 ms publish nothing; with the first boundary a second after the
    last publish, the three boundaries publish one snapshot of 20 messages,
    not two. *)
Lemma third_boundary_does_not_publish :
  (∃ self, run [Boundary 0; Boundary (5 # 1000); Boundary (6 # 1000)] (init 0)
           = Some self ∧ pd_client self = []) ∧
  (∃ self, run [Boundary 1; Boundary (1005 # 1000); Boundary (1006 # 1000)] (init 0)
           = Some self ∧ length (pd_client self) = 20 ∧ last_send_time self = 1%Q).
Proof.
  split; eexists.
  - split; vm_compute; reflexivity.
  - split; [vm_compute; reflexivity|]. split; vm_compute; reflexivity.
Qed.

(** C5, as the code has it. A frame boundary whose clock reading is earlier
    than the recorded last publish is dropped: nothing is published and the
    state is unchanged (the interval being non-negative). *)
Theorem backward_clock_suppresses self current_time :
  (0 <= send_interval self)%Q →
  (current_time < last_send_time self)%Q →
  frame_boundary current_time self = Some self.
Proof. intros Hint Hback. apply frame_boundary_skip. lra. Qed.

Lemma backward_clock_suppresses_witness :
  (0 <= send_interval (init 100))%Q ∧
  (99 < last_send_time (init 100))%Q ∧
  frame_boundary 99 (init 100) = Some (init 100).
Proof.
  assert (0 <= send_interval (init 100))%Q as Hint by (vm_compute; discriminate).
  assert (99 < last_send_time (init 100))%Q as Hback by (vm_compute; reflexivity).
  split; [exact Hint|]. split; [exact Hback|].
  exact (backward_clock_suppresses (init 100) 99 Hint Hback).
Defined.

(** C5 fails as stated: a converter whose last publish is at time 100 drops
    the boundary read at time 99. *)
Lemma backward_clock_does_not_publish :
  (99 < last_send_time (init 100))%Q ∧
  ∃ self, frame_boundary 99 (init 100) = Some self ∧
    pd_client self = pd_client (init 100) ∧
    last_send_time self = 100%Q.
Proof.
  split; [vm_compute; reflexivity|].
  eexists. split; [vm_compute; reflexivity|]. split; reflexivity.
Qed.

(** * Further properties of the converter *)

(** ** What can raise *)

Lemma apply_event_config ev self self' :
  wf self → apply_event ev self = Some self' →
  num_points self' = num_points self ∧ send_interval self' = send_interval self.
Proof.
  intros Hwf Hrun. destruct ev as [id x y vx vy a|ids|t]; simpl in Hrun.
  - destruct (process_set_cases id x y vx vy a self Hwf)
      as [(i & _ & _ & Heq)|[(i & _ & _ & _ & _ & Heq)|(_ & _ & Heq)]];
      rewrite Heq in Hrun; by injection Hrun as <-.
  - destruct (process_alive_released ids self Hwf) as (self0 & Hrel & Heq).
    rewrite Heq in Hrun. injection Hrun as <-.
    destruct Hrel as (Hn & _ & _ & Hint & _). by split.
  - injection Hrun as <-.
    destruct (after_boundary_engine t self) as (Hn & _ & _ & _ & Hint). by split.
Qed.

Lemma run_config evs self self' :
  wf self → run evs self = Some self' →
  num_points self' = num_points self ∧ send_interval self' = send_interval self.
Proof.
  revert self. induction evs as [|ev evs IH]; intros self Hwf Hrun; simpl in Hrun.
  - by injection Hrun as <-.
  - destruct (apply_event_wf ev self Hwf) as (self1 & Hs1 & Hwf1).
    rewrite Hs1 in Hrun. simpl in Hrun.
    destruct (apply_event_config ev self self1 Hwf Hs1) as [<- <-].
    by apply IH.
Qed.

(** X1. After [__init__], whatever stream of updates, liveness announcements
    and frame boundaries the server has handled, boundaries whose send raised
    included: the table keeps its 20 entries, every binding is an index below
    20, the interval stays at 10 ms, no update and no liveness announcement
    raises, and a frame boundary raises only when its gate is open and the
    client cannot write some record of the table. *)
Theorem only_the_send_raises evs now :
  ∃ self, run evs (init now) = Some self ∧
    num_points self = 20 ∧
    length (points self) = 20 ∧
    send_interval self = (1 # 100)%Q ∧
    (∀ id i, id_to_point self !! id = Some i → i < 20) ∧
    (∀ session_id x y x_vel y_vel accel,
       is_Some (process_set session_id x y x_vel y_vel accel self)) ∧
    (∀ new_active_ids, is_Some (process_alive new_active_ids self)) ∧
    (∀ current_time, frame_boundary current_time self = None →
       (send_interval self <= current_time - last_send_time self)%Q ∧
       all_encode self = false).
Proof.
  destruct (run_wf evs (init now) (wf_init_any now)) as (self & Hrun & Hwf).
  destruct (run_config evs (init now) self (wf_init_any now) Hrun) as [Hn Hint].
  pose proof Hwf as (Hlen & _ & Hbind). simpl in Hn, Hint.
  exists self. split; [done|]. split; [done|]. split; [congruence|].
  split; [done|]. split; [|split; [|split]].
  - intros id i Hid. rewrite <- Hn. by apply (Hbind id).
  - intros id x y vx vy a.
    destruct (process_set_wf id x y vx vy a self Hwf) as (s1 & -> & _). by eexists.
  - intros ids. destruct (process_alive_wf ids self Hwf) as (s1 & -> & _).
    by eexists.
  - intros t Hraise. unfold frame_boundary in Hraise.
    destruct (Qle_bool _ _) eqn:Hle; [|done]. apply Qle_bool_iff in Hle.
    split; [done|]. destruct (all_encode self) eqn:Henc; [|done].
    by rewrite (send_to_puredata_encodes self Hwf Henc) in Hraise.
Qed.

(** ** The published snapshot *)

(** X2. In a well-formed state whose records the client can all write,
    [send_to_puredata] returns and has sent exactly [num_points] messages,
    one per slot in ascending index order, message [i] carrying the record of
    slot [i], free slots included; the converter is otherwise unchanged. When
    the client cannot write some record, the call raises. *)
Theorem snapshot_complete self :
  wf self →
  (all_encode self = true →
   ∃ self' msgs, send_to_puredata self = Some self' ∧
     pd_client self' = pd_client self ++ msgs ∧
     length msgs = num_points self ∧
     msgs.*1 = seq 0 (num_points self) ∧
     msgs.*2 = points self ∧
     points self' = points self ∧
     id_to_point self' = id_to_point self ∧
     active_ids self' = active_ids self ∧
     last_send_time self' = last_send_time self) ∧
  (all_encode self = false → send_to_puredata self = None).
Proof.
  intros Hwf. pose proof Hwf as (Hlen & _ & _).
  split; [|by apply send_to_puredata_raises].
  intros Henc. rewrite (send_to_puredata_encodes self Hwf Henc).
  eexists. eexists. split; [done|]. simpl. split; [done|].
  split; [|split; [|split; [|done]]].
  - rewrite length_zip_with_l_eq; by rewrite length_seq.
  - apply fst_zip. rewrite length_seq. lia.
  - apply snd_zip. rewrite length_seq. lia.
Qed.

Lemma snapshot_complete_witness :
  wf three_bound ∧
  all_encode three_bound = true ∧
  ∃ self' msgs, send_to_puredata three_bound = Some self' ∧
    pd_client self' = pd_client three_bound ++ msgs ∧
    length msgs = num_points three_bound ∧
    msgs.*1 = seq 0 (num_points three_bound) ∧
    msgs.*2 = points three_bound ∧
    points self' = points three_bound ∧
    id_to_point self' = id_to_point three_bound ∧
    active_ids self' = active_ids three_bound ∧
    last_send_time self' = last_send_time three_bound.
Proof.
  assert (wf three_bound) as Hwf by by_compute.
  assert (all_encode three_bound = true) as Henc by (vm_compute; reflexivity).
  split; [exact Hwf|]. split; [exact Henc|].
  exact (proj1 (snapshot_complete three_bound Hwf) Henc).
Defined.

(** ** What an update writes *)

(** The slot an update writes and the state it leaves, on every path. *)
Lemma process_set_slot session_id x y x_vel y_vel accel self :
  wf self →
  ∃ self' i, process_set session_id x y x_vel y_vel accel self = Some self' ∧
    wf self' ∧ i < num_points self ∧
    num_points self' = num_points self ∧
    points self' = <[i := record x y x_vel y_vel accel]> (points self) ∧
    id_to_point self' = <[session_id := i]> (id_to_point self).
Proof.
  intros Hwf.
  destruct (process_set_wf session_id x y x_vel y_vel accel self Hwf)
    as (self' & Hrun & Hwf').
  exists self'.
  destruct (process_set_cases session_id x y x_vel y_vel accel self Hwf)
    as [(i & Hid & Hi & Heq)|[(i & _ & Hi & _ & _ & Heq)|(_ & _ & Heq)]];
    rewrite Heq in Hrun; injection Hrun as <-.
  - exists i. do 5 (split; [done|]). simpl. by rewrite insert_id.
  - exists i. by do 5 (split; [done|]).
  - exists 0. split; [done|]. split; [done|].
    split; [by destruct Hwf as (_ & ? & _)|]. by do 2 (split; [done|]).
Qed.

(** X3. An update writes one slot and one binding: the identifier is bound
    afterwards to a slot that holds the record of the update, every other
    slot holds what it held, every other identifier is bound as it was, and
    the table keeps its length. *)
Theorem update_touches_one_slot session_id x y x_vel y_vel accel self :
  wf self →
  ∃ self' i, process_set session_id x y x_vel y_vel accel self = Some self' ∧
    i < num_points self ∧
    id_to_point self' !! session_id = Some i ∧
    points self' !! i = Some (record x y x_vel y_vel accel) ∧
    length (points self') = length (points self) ∧
    (∀ j, j ≠ i → points self' !! j = points self !! j) ∧
    (∀ d, d ≠ session_id → id_to_point self' !! d = id_to_point self !! d).
Proof.
  intros Hwf.
  destruct (process_set_slot session_id x y x_vel y_vel accel self Hwf)
    as (self' & i & Hrun & _ & Hi & _ & Hpts & Hb).
  destruct Hwf as (Hlen & _ & _).
  exists self', i. split; [done|]. split; [done|]. rewrite Hpts, Hb.
  split; [by rewrite lookup_insert_eq|].
  split; [apply list_lookup_insert_eq; lia|].
  split; [by rewrite length_insert|]. split.
  - intros j Hj. by rewrite list_lookup_insert_ne.
  - intros d Hd. by rewrite lookup_insert_ne.
Qed.

Lemma update_touches_one_slot_witness :
  wf three_bound ∧
  ∃ self' i, process_set 2 0.75 0.25 0 0 0 three_bound = Some self' ∧
    i < num_points three_bound ∧
    id_to_point self' !! 2%Z = Some i ∧
    points self' !! i = Some (record 0.75 0.25 0 0 0) ∧
    length (points self') = length (points three_bound) ∧
    (∀ j, j ≠ i → points self' !! j = points three_bound !! j) ∧
    (∀ d, d ≠ 2%Z → id_to_point self' !! d = id_to_point three_bound !! d).
Proof.
  assert (wf three_bound) as Hwf by by_compute.
  split; [exact Hwf|].
  exact (update_touches_one_slot 2 0.75 0.25 0 0 0 three_bound Hwf).
Defined.



(** ** Bound identifiers and the active set *)

Lemma apply_event_bound_are_active ev self self' :
  wf self → bound_are_active self →
  apply_event ev self = Some self' → bound_are_active self'.
Proof.
  intros Hwf Hinv Hrun. destruct ev as [id x y vx vy a|ids|t]; simpl in Hrun.
  - destruct (process_set_cases id x y vx vy a self Hwf)
      as [(i & _ & _ & Heq)|[(i & _ & _ & _ & _ & Heq)|(_ & _ & Heq)]];
      rewrite Heq in Hrun; injection Hrun as <-; [done| |];
      intros d j Hd; simpl in *;
      (destruct (decide (d = id)) as [->|Hne];
       [apply elem_of_union_l; by apply elem_of_singleton|
        rewrite lookup_insert_ne in Hd by done;
        apply elem_of_union_r; by apply (Hinv d j)]).
  - destruct (process_alive_released ids self Hwf) as (self0 & Hrel & Heq).
    rewrite Heq in Hrun. injection Hrun as <-. intros d j Hd. simpl in *.
    destruct Hrel as (_ & _ & _ & _ & _ & _ & Hb & _). rewrite Hb in Hd.
    case_decide as Hin; [done|]. destruct (decide (d ∈ ids)) as [?|Hout]; [done|].
    destruct Hin. apply elem_of_elements, elem_of_difference.
    split; [by apply (Hinv d j)|done].
  - injection Hrun as <-.
    destruct (after_boundary_engine t self) as (_ & Hb & _ & Ha & _).
    unfold bound_are_active. rewrite Hb, Ha. exact Hinv.
Qed.

Lemma run_bound_are_active evs self self' :
  wf self → bound_are_active self →
  run evs self = Some self' → bound_are_active self'.
Proof.
  revert self. induction evs as [|ev evs IH]; intros self Hwf Hinv Hrun; simpl in Hrun.
  - by injection Hrun as <-.
  - destruct (apply_event_wf ev self Hwf) as (self1 & Hs1 & Hwf1).
    rewrite Hs1 in Hrun. simpl in Hrun.
    refine (IH self1 Hwf1 _ Hrun).
    exact (apply_event_bound_are_active ev self self1 Hwf Hinv Hs1).
Qed.

(** X5. In every state reached from the initial one each bound identifier is
    in the active set ([assign_new_id] adds it). Hence no binding outlives a
    liveness announcement that omits its identifier: after
    [process_alive(new_active_ids)] every bound identifier is in
    [new_active_ids]. *)
Theorem bound_identifiers_are_active evs now self :
  run evs (init now) = Some self →
  (∀ id i, id_to_point self !! id = Some i → id ∈ active_ids self) ∧
  (∀ new_active_ids, ∃ self',
     process_alive new_active_ids self = Some self' ∧
     ∀ id i, id_to_point self' !! id = Some i → id ∈ new_active_ids).
Proof.
  intros Hrun.
  assert (bound_are_active (init now)) as Hinit.
  { intros id i Hid. by destruct (lookup_empty_Some (M := gmap Z) id i). }
  pose proof (run_bound_are_active evs _ _ (wf_init_any now) Hinit Hrun) as Hinv.
  destruct (run_init_invariant evs now self Hrun) as (Hwf & _).
  split; [exact Hinv|]. intros new_active_ids.
  destruct (process_alive_wf new_active_ids self Hwf) as (self' & Halive & _).
  exists self'. split; [done|].
  assert (run (evs ++ [Liveness new_active_ids]) (init now) = Some self') as Hrun'.
  { clear Hinv Hinit Hwf. revert Hrun. generalize (init now).
    induction evs as [|ev evs IH]; intros s0 Hrun; simpl in *.
    - injection Hrun as ->. by rewrite Halive.
    - destruct (apply_event ev s0) as [s1|]; [|done]. simpl in *. by apply IH. }
  pose proof (run_bound_are_active _ _ _ (wf_init_any now) Hinit Hrun') as Hinv'.
  intros id i Hid. pose proof (Hinv' id i Hid) as Hin.
  unfold process_alive in Halive.
  destruct (release_all _ self) as [s0|]; [|done]. simpl in Halive.
  by injection Halive as <-.
Qed.

Lemma bound_identifiers_are_active_witness :
  run regular_stream (init 0) = Some regular_state ∧
  (∀ id i, id_to_point regular_state !! id = Some i → id ∈ active_ids regular_state) ∧
  (∀ new_active_ids, ∃ self',
     process_alive new_active_ids regular_state = Some self' ∧
     ∀ id i, id_to_point self' !! id = Some i → id ∈ new_active_ids).
Proof.
  assert (run regular_stream (init 0) = Some regular_state) as Hrun
    by (vm_compute; reflexivity).
  split; [exact Hrun|].
  exact (bound_identifiers_are_active regular_stream 0 regular_state Hrun).
Defined.

(** ** Announcements that remove nothing *)

Lemma release_all_unbound ids self :
  (∀ id, id ∈ ids → id_to_point self !! id = None) →
  release_all ids self = Some self.
Proof.
  induction ids as [|a rest IH]; intros Hnone; [done|]. simpl.
  rewrite release_unbound by (apply Hnone, list_elem_of_here). simpl.
  apply IH. intros id Hin. by apply Hnone, list_elem_of_further.
Qed.

(** X6. A liveness announcement that omits no bound identifier (it may omit
    identifiers that were announced and never updated) changes neither a slot
    nor a binding: the converter differs in its active set only. *)
Theorem liveness_without_bound_removals new_active_ids self :
  (∀ id, id ∈ active_ids self → id ∉ new_active_ids →
     id_to_point self !! id = None) →
  process_alive new_active_ids self = Some (with_active_ids new_active_ids self).
Proof.
  intros Hnone. unfold process_alive. rewrite release_all_unbound; [done|].
  intros id Hin. apply elem_of_elements, elem_of_difference in Hin as [? ?].
  by apply Hnone.
Qed.

Lemma liveness_without_bound_removals_witness :
  (∀ id, id ∈ active_ids announced → id ∉ ({[4%Z]} : gset Z) →
     id_to_point announced !! id = None) ∧
  process_alive {[4%Z]} announced = Some (with_active_ids {[4%Z]} announced).
Proof.
  assert (∀ id, id ∈ active_ids announced → id ∉ ({[4%Z]} : gset Z) →
            id_to_point announced !! id = None) as Hnone.
  { intros id _ _. apply (lookup_empty (M := gmap Z)). }
  split; [exact Hnone|].
  exact (liveness_without_bound_removals {[4%Z]} announced Hnone).
Defined.

(** X7. Repeating a liveness announcement changes nothing: in a well-formed
    state [process_alive] raises nothing, and a second call with the same set
    returns the state the first call left. *)
Theorem liveness_idempotent new_active_ids self :
  wf self →
  ∃ self', process_alive new_active_ids self = Some self' ∧
    process_alive new_active_ids self' = Some self'.
Proof.
  intros Hwf.
  destruct (process_alive_released new_active_ids self Hwf) as (self0 & _ & Heq).
  eexists. split; [exact Heq|].
  unfold process_alive. simpl.
  rewrite difference_diag_L, elements_empty. simpl. by destruct self0.
Qed.

Lemma liveness_idempotent_witness :
  wf three_bound ∧
  ∃ self', process_alive {[1%Z; 3%Z]} three_bound = Some self' ∧
    process_alive {[1%Z; 3%Z]} self' = Some self'.
Proof.
  assert (wf three_bound) as Hwf by by_compute.
  split; [exact Hwf|]. exact (liveness_idempotent {[1%Z; 3%Z]} three_bound Hwf).
Defined.

(** X8. The loop of [process_alive] may walk the removed identifiers in any
    order, and meet an identifier more than once: every list with the
    elements of [active_ids - new_active_ids] leads to the same state. *)
Theorem removal_order_irrelevant ids new_active_ids self :
  wf self →
  (∀ id, id ∈ ids ↔ id ∈ active_ids self ∖ new_active_ids) →
  (self' ← release_all ids self; Some (with_active_ids new_active_ids self'))
  = process_alive new_active_ids self.
Proof.
  intros Hwf Hsame. unfold process_alive.
  destruct (release_all_released ids self Hwf) as (s1 & -> & H1).
  destruct (release_all_released (elements (active_ids self ∖ new_active_ids))
              self Hwf) as (s2 & -> & H2).
  simpl. do 2 f_equal.
  apply (released_unique ids (elements (active_ids self ∖ new_active_ids)) self);
    [|done..].
  intros id. by rewrite Hsame, elem_of_elements.
Qed.

Lemma removal_order_irrelevant_witness :
  wf three_bound ∧
  (∀ id, id ∈ [3%Z; 2%Z; 3%Z] ↔ id ∈ active_ids three_bound ∖ {[1%Z]}) ∧
  (self' ← release_all [3%Z; 2%Z; 3%Z] three_bound;
   Some (with_active_ids {[1%Z]} self'))
  = process_alive {[1%Z]} three_bound.
Proof.
  assert (wf three_bound) as Hwf by by_compute.
  assert (∀ id, id ∈ [3%Z; 2%Z; 3%Z] ↔ id ∈ active_ids three_bound ∖ {[1%Z]})
    as Hsame.
  { intros id. simpl.
    rewrite elem_of_difference, !elem_of_union, !elem_of_singleton.
    rewrite !elem_of_cons, elem_of_nil. lia. }
  split; [exact Hwf|]. split; [exact Hsame|].
  exact (removal_order_irrelevant [3%Z; 2%Z; 3%Z] {[1%Z]} three_bound Hwf Hsame).
Defined.

(** ** An update undone by an announcement *)

(** X9. An identifier that appears and disappears leaves no trace in the
    table: when an update binds a new identifier to a slot that held the
    initial record [(-1, -1, 0, 0, 0)], and the next liveness announcement
    omits that identifier and no other active one, the slots and the bindings
    are what they were before the update. *)
Theorem update_then_removal_restores session_id x y x_vel y_vel accel
    new_active_ids self i :
  wf self →
  id_to_point self !! session_id = None →
  points self !! i = Some sentinel →
  (∀ j, j < i → occupied self j) →
  active_ids self ⊆ new_active_ids →
  session_id ∉ new_active_ids →
  run [Update session_id x y x_vel y_vel accel; Liveness new_active_ids] self
  = Some (with_active_ids new_active_ids self).
Proof.
  intros Hwf Hid Hp Hbelow Hsub Hout. simpl.
  rewrite (process_set_least_free _ _ _ _ _ _ _ i sentinel) by done. simpl.
  unfold process_alive. simpl.
  assert (({[session_id]} ∪ active_ids self) ∖ new_active_ids = {[session_id]})
    as ->.
  { apply set_eq. intros id.
    rewrite elem_of_difference, elem_of_union, elem_of_singleton. split.
    - intros [[->|Hin] Hnot]; [done|]. destruct Hnot. by apply Hsub.
    - intros ->. split; [by left|done]. }
  rewrite elements_singleton. simpl. unfold release. simpl.
  rewrite lookup_insert_eq. rewrite setitem_Some.
  2: { rewrite length_insert. by apply lookup_lt_Some in Hp. }
  simpl. rewrite list_insert_insert_eq, (list_insert_id _ _ _ Hp).
  rewrite delete_insert_id by done. done.
Qed.

Lemma update_then_removal_restores_witness :
  wf three_bound ∧
  id_to_point three_bound !! 8%Z = None ∧
  points three_bound !! 3 = Some sentinel ∧
  (∀ j, j < 3 → occupied three_bound j) ∧
  (active_ids three_bound ⊆ {[1%Z; 2%Z; 3%Z; 4%Z]}) ∧
  (8%Z ∉ ({[1%Z; 2%Z; 3%Z; 4%Z]} : gset Z)) ∧
  run [Update 8 0.5 0.5 0 0 0; Liveness {[1%Z; 2%Z; 3%Z; 4%Z]}] three_bound
  = Some (with_active_ids {[1%Z; 2%Z; 3%Z; 4%Z]} three_bound).
Proof.
  assert (wf three_bound) as Hwf by by_compute.
  assert (id_to_point three_bound !! 8%Z = None) as Hid by reflexivity.
  assert (points three_bound !! 3 = Some sentinel) as Hp by reflexivity.
  assert (∀ j, j < 3 → occupied three_bound j) as Hbelow.
  { intros j Hj. destruct j as [|[|[|j]]]; [| | |lia]; eexists; by split. }
  assert (active_ids three_bound ⊆ {[1%Z; 2%Z; 3%Z; 4%Z]}) as Hsub by by_compute.
  assert (8%Z ∉ ({[1%Z; 2%Z; 3%Z; 4%Z]} : gset Z)) as Hout by by_compute.
  do 6 (split; [assumption|]).
  exact (update_then_removal_restores 8 0.5 0.5 0 0 0 {[1%Z; 2%Z; 3%Z; 4%Z]}
           three_bound 3 Hwf Hid Hp Hbelow Hsub Hout).
Defined.

(** ** The handler and the conversions *)

(** X10. On a well-formed state the handler raises only where a conversion
    or the client's send does: when [int] and [float] succeed on every
    argument after the command and the client can write every record of the
    table, the handler returns a well-formed state, for every command and
    every number of arguments. *)
Theorem handler_returns py_int py_float current_time args self :
  wf self →
  all_encode self = true →
  (∀ a, a ∈ drop 1 args → is_Some (py_int a) ∧ is_Some (py_float a)) →
  ∃ self', handle_tuio_message py_int py_float current_time args self = Some self'
    ∧ wf self'.
Proof.
  intros Hwf Henc Hconv. destruct args as [|command rest]; [by exists self|].
  unfold handle_tuio_message. change (drop 1 (command :: rest)) with rest in *.
  destruct (eq_str command "set").
  - case_decide as Hlen; [by exists self|].
    destruct rest as [|a1 [|a2 [|a3 [|a4 [|a5 [|a6 rest]]]]]]; simpl in Hlen; try lia.
    destruct (Hconv a1) as [[session_id H1] _]; [set_unfold; tauto|].
    destruct (Hconv a2) as [_ [x H2]]; [set_unfold; tauto|].
    destruct (Hconv a3) as [_ [y H3]]; [set_unfold; tauto|].
    destruct (Hconv a4) as [_ [x_vel H4]]; [set_unfold; tauto|].
    destruct (Hconv a5) as [_ [y_vel H5]]; [set_unfold; tauto|].
    destruct (Hconv a6) as [_ [accel H6]]; [set_unfold; tauto|].
    simpl. rewrite H1, H2, H3, H4, H5, H6. simpl. by apply process_set_wf.
  - destruct (eq_str command "alive").
    + destruct (mapM_is_Some_2 py_int rest) as [ids Hids].
      { apply Forall_forall. intros a Ha. by destruct (Hconv a Ha). }
      rewrite Hids. simpl. by apply process_alive_wf.
    + destruct (eq_str command "fseq"); [|by exists self].
      unfold frame_boundary. destruct (Qle_bool _ _); [|by exists self].
      rewrite (send_to_puredata_encodes self Hwf Henc). simpl.
      eexists. split; [done|]. exact Hwf.
Qed.

Lemma handler_returns_witness :
  wf three_bound ∧
  all_encode three_bound = true ∧
  (∀ a, a ∈ drop 1 [OscStr "fseq"; OscInt 3] →
     is_Some ((λ _, Some 7%Z) a) ∧ is_Some ((λ _, Some 0.5%float) a)) ∧
  ∃ self', handle_tuio_message (λ _, Some 7%Z) (λ _, Some 0.5%float) 1
             [OscStr "fseq"; OscInt 3] three_bound = Some self'
    ∧ wf self'.
Proof.
  assert (wf three_bound) as Hwf by by_compute.
  assert (all_encode three_bound = true) as Henc by (vm_compute; reflexivity).
  assert (∀ a, a ∈ drop 1 [OscStr "fseq"; OscInt 3] →
            is_Some ((λ _ : osc_arg, Some 7%Z) a) ∧
            is_Some ((λ _ : osc_arg, Some 0.5%float) a)) as Hconv.
  { intros a _. split; eexists; reflexivity. }
  split; [exact Hwf|]. split; [exact Henc|]. split; [exact Hconv|].
  exact (handler_returns (λ _, Some 7%Z) (λ _, Some 0.5%float) 1
           [OscStr "fseq"; OscInt 3] three_bound Hwf Henc Hconv).
Defined.

(** X11. An [alive] message counts as the set of its identifiers: two
    messages whose arguments convert to lists with the same elements, in any
    order and with any repetition, have the same effect. *)
Theorem alive_depends_on_set py_int py_float current_time rest rest' ids ids' self :
  mapM py_int rest = Some ids →
  mapM py_int rest' = Some ids' →
  (∀ id, id ∈ ids ↔ id ∈ ids') →
  handle_tuio_message py_int py_float current_time (OscStr "alive" :: rest) self
  = handle_tuio_message py_int py_float current_time (OscStr "alive" :: rest') self.
Proof.
  intros Hids Hids' Hsame.
  rewrite (handle_alive _ _ _ _ rest ids), (handle_alive _ _ _ _ rest' ids') by done.
  f_equal. apply set_eq. intros id. by rewrite !elem_of_list_to_set.
Qed.

Lemma alive_depends_on_set_witness :
  mapM int_of_int [OscInt 1; OscInt 3; OscInt 1] = Some [1%Z; 3%Z; 1%Z] ∧
  mapM int_of_int [OscInt 3; OscInt 1] = Some [3%Z; 1%Z] ∧
  (∀ id, id ∈ [1%Z; 3%Z; 1%Z] ↔ id ∈ [3%Z; 1%Z]) ∧
  handle_tuio_message int_of_int float_of_float 1
    [OscStr "alive"; OscInt 1; OscInt 3; OscInt 1] three_bound
  = handle_tuio_message int_of_int float_of_float 1
      [OscStr "alive"; OscInt 3; OscInt 1] three_bound.
Proof.
  assert (mapM int_of_int [OscInt 1; OscInt 3; OscInt 1] = Some [1%Z; 3%Z; 1%Z])
    as H1 by reflexivity.
  assert (mapM int_of_int [OscInt 3; OscInt 1] = Some [3%Z; 1%Z]) as H2
    by reflexivity.
  assert (∀ id, id ∈ [1%Z; 3%Z; 1%Z] ↔ id ∈ [3%Z; 1%Z]) as Hsame.
  { intros id. rewrite !elem_of_cons, elem_of_nil. lia. }
  split; [exact H1|]. split; [exact H2|]. split; [exact Hsame|].
  exact (alive_depends_on_set int_of_int float_of_float 1 _ _ _ _ three_bound
           H1 H2 Hsame).
Defined.

(** ** Sending and the publish clock *)

Lemma apply_event_no_boundary ev self self' :
  wf self → is_boundary ev = false →
  apply_event ev self = Some self' →
  pd_client self' = pd_client self ∧ last_send_time self' = last_send_time self.
Proof.
  intros Hwf Hev Hrun. destruct ev as [id x y vx vy a|ids|t]; simpl in Hrun; [| |done].
  - destruct (process_set_cases id x y vx vy a self Hwf)
      as [(i & _ & _ & Heq)|[(i & _ & _ & _ & _ & Heq)|(_ & _ & Heq)]];
      rewrite Heq in Hrun; by injection Hrun as <-.
  - destruct (process_alive_released ids self Hwf) as (self0 & Hrel & Heq).
    rewrite Heq in Hrun. injection Hrun as <-.
    destruct Hrel as (_ & _ & Hlast & _ & Hpd & _). by split.
Qed.

Lemma run_no_boundary evs self self' :
  wf self → forallb (λ ev, negb (is_boundary ev)) evs = true →
  run evs self = Some self' →
  pd_client self' = pd_client self ∧ last_send_time self' = last_send_time self.
Proof.
  revert self. induction evs as [|ev evs IH]; intros self Hwf Hevs Hrun; simpl in *.
  - by injection Hrun as <-.
  - destruct (apply_event_wf ev self Hwf) as (self1 & Hs1 & Hwf1).
    rewrite Hs1 in Hrun. simpl in Hrun.
    apply andb_true_iff in Hevs as [Hev Hevs]. apply negb_true_iff in Hev.
    destruct (apply_event_no_boundary ev self self1 Hwf Hev Hs1) as [<- <-].
    by apply IH.
Qed.

(** X12. Only frame boundaries send: a stream of updates and liveness
    announcements, however long, hands the client no message and leaves the
    recorded publish time alone. *)
Theorem only_boundaries_send evs self :
  wf self →
  forallb (λ ev, negb (is_boundary ev)) evs = true →
  ∃ self', run evs self = Some self' ∧
    pd_client self' = pd_client self ∧
    last_send_time self' = last_send_time self.
Proof.
  intros Hwf Hevs. destruct (run_wf evs self Hwf) as (self' & Hrun & _).
  exists self'. split; [done|]. by apply (run_no_boundary evs).
Qed.

Lemma only_boundaries_send_witness :
  wf (init 0) ∧
  forallb (λ ev, negb (is_boundary ev)) (fill_table ++ [Liveness {[2%Z]}]) = true ∧
  ∃ self', run (fill_table ++ [Liveness {[2%Z]}]) (init 0) = Some self' ∧
    pd_client self' = pd_client (init 0) ∧
    last_send_time self' = last_send_time (init 0).
Proof.
  assert (wf (init 0)) as Hwf by by_compute.
  assert (forallb (λ ev, negb (is_boundary ev)) (fill_table ++ [Liveness {[2%Z]}])
          = true) as Hevs by reflexivity.
  split; [exact Hwf|]. split; [exact Hevs|].
  exact (only_boundaries_send (fill_table ++ [Liveness {[2%Z]}]) (init 0) Hwf Hevs).
Defined.

Lemma encodes_index i : i < 20 → encodes (PyInt (Z.of_nat i)) = true.
Proof. intros Hi. do 20 (destruct i as [|i]; [reflexivity|]). lia. Qed.

Lemma all_encode_lookup self :
  wf self →
  all_encode self = true ↔
  ∀ i p, points self !! i = Some p → encodes_message (i, p) = true.
Proof.
  intros (Hlen & _ & _). unfold all_encode. rewrite forallb_forall. split.
  - intros H i p Hp. apply H, list_elem_of_In, list_elem_of_lookup.
    exists i. apply lookup_zip_with_Some. exists i, p. split; [done|].
    split; [|done]. apply lookup_seq_lt. apply lookup_lt_Some in Hp. lia.
  - intros H [i p] Hin. apply list_elem_of_In, list_elem_of_lookup in Hin as [j Hj].
    apply lookup_zip_with_Some in Hj as (i' & p' & [= <- <-] & Hi & Hp).
    apply lookup_seq in Hi as [-> _]. by apply H.
Qed.

(** Updates whose coordinates the client can write keep the whole table
    writable. *)
Lemma apply_event_all_encode ev self self' :
  wf self → num_points self = 20 → all_encode self = true →
  encodable ev = true →
  apply_event ev self = Some self' → all_encode self' = true.
Proof.
  intros Hwf Hn Henc Hev Hrun.
  assert (wf self') as Hwf'.
  { destruct (apply_event_wf ev self Hwf) as (s1 & Hs1 & Hw). congruence. }
  apply (all_encode_lookup self' Hwf'). intros j q Hq.
  pose proof (proj1 (all_encode_lookup self Hwf) Henc) as Hold.
  destruct ev as [id x y vx vy a|ids|t]; simpl in Hrun.
  - destruct (process_set_slot id x y vx vy a self Hwf)
      as (s1 & i & Hs1 & _ & Hi & _ & Hpts & _).
    rewrite Hs1 in Hrun. injection Hrun as <-. rewrite Hpts in Hq.
    destruct (decide (j = i)) as [->|Hne].
    + rewrite list_lookup_insert_eq in Hq
        by (destruct Hwf as (Hlen & _); lia).
      injection Hq as <-. unfold encodes_message. cbn [fst snd].
      rewrite encodes_index by lia. exact Hev.
    + rewrite list_lookup_insert_ne in Hq by done. by apply Hold.
  - destruct (process_alive_released ids self Hwf) as (self0 & Hrel & Heq).
    rewrite Heq in Hrun. injection Hrun as <-. simpl in Hq.
    destruct Hrel as (_ & _ & _ & _ & _ & Hlen' & _ & Hp). rewrite Hp in Hq.
    case_decide; [|by apply Hold].
    injection Hq as <-. unfold encodes_message. cbn [fst snd].
    assert (j < 20) as Hj.
    { destruct (decide (j < 20)); [done|]. exfalso.
      destruct Hwf as (Hlen & _ & Hbind).
      apply Exists_exists in H as (d & _ & Hd). apply (Hbind d) in Hd. lia. }
    by rewrite encodes_index.
  - injection Hrun as <-.
    destruct (after_boundary_engine t self) as (_ & _ & Hp & _).
    rewrite Hp in Hq. by apply Hold.
Qed.

Lemma apply_event_whole_snapshots ev self self' k :
  wf self → all_encode self = true →
  (pd_client self).*1 = mjoin (replicate k (seq 0 (num_points self))) →
  apply_event ev self = Some self' →
  ∃ k', (pd_client self').*1 = mjoin (replicate k' (seq 0 (num_points self'))).
Proof.
  intros Hwf Henc Hk Hrun.
  destruct (apply_event_config ev self self' Hwf Hrun) as [Hn _]. rewrite Hn.
  destruct (is_boundary ev) eqn:Hev.
  - destruct ev as [| |t]; try done. simpl in Hrun. injection Hrun as <-.
    unfold after_boundary.
    destruct (Qle_bool _ _); [|by exists k].
    rewrite (send_loop_all_encode self Hwf Henc). simpl.
    exists (S k). rewrite fmap_app, Hk, replicate_S_end, join_app. f_equal.
    simpl. rewrite app_nil_r. apply fst_zip.
    destruct Hwf as (Hlen & _). rewrite length_seq. lia.
  - destruct (apply_event_no_boundary ev self self' Hwf Hev Hrun) as [-> _].
    by exists k.
Qed.

(** X13. As long as every update carries coordinates the client can write
    (none beyond the float32 range), what the client has been sent is a whole
    number of snapshots: in every state such a stream reaches from the
    initial one, the indices of the messages sent so far are
    [0, 1, ..., 19] repeated, once per publish. *)
Theorem output_is_whole_snapshots evs now self :
  forallb encodable evs = true →
  run evs (init now) = Some self →
  ∃ k, (pd_client self).*1 = mjoin (replicate k (seq 0 20)) ∧
       length (pd_client self) = k * 20.
Proof.
  intros Hevs Hrun.
  assert (∃ k, (pd_client self).*1 = mjoin (replicate k (seq 0 (num_points self))))
    as [k Hk].
  { assert (∃ k, (pd_client (init now)).*1
                 = mjoin (replicate k (seq 0 (num_points (init now))))) as Hinit
      by (by exists 0).
    assert (num_points (init now) = 20) as Hn0 by done.
    assert (all_encode (init now) = true) as Henc0 by done.
    revert Hevs Hrun Hinit Hn0 Henc0.
    generalize (wf_init_any now). generalize (init now).
    induction evs as [|ev evs IH]; intros s0 Hwf Hevs Hrun [k Hk] Hn0 Henc0;
      simpl in Hrun, Hevs.
    - injection Hrun as <-. by exists k.
    - destruct (apply_event_wf ev s0 Hwf) as (s1 & Hs1 & Hwf1).
      rewrite Hs1 in Hrun. simpl in Hrun.
      apply andb_true_iff in Hevs as [Hev Hevs].
      destruct (apply_event_config ev s0 s1 Hwf Hs1) as [Hn1 _].
      apply (IH s1 Hwf1 Hevs Hrun).
      + by apply (apply_event_whole_snapshots ev s0 s1 k).
      + congruence.
      + by apply (apply_event_all_encode ev s0 s1). }
  destruct (run_config evs (init now) self (wf_init_any now) Hrun) as [Hn _].
  rewrite Hn in Hk. change (num_points (init now)) with 20 in Hk.
  exists k. split; [exact Hk|].
  assert (length (pd_client self) = length ((pd_client self).*1)) as ->
    by (symmetry; apply length_fmap).
  rewrite Hk. clear. induction k as [|k IH]; [done|].
  change (replicate (S k) (seq 0 20)) with (seq 0 20 :: replicate k (seq 0 20)).
  change (mjoin (seq 0 20 :: replicate k (seq 0 20)))
    with (seq 0 20 ++ mjoin (replicate k (seq 0 20))).
  rewrite length_app, IH, length_seq. lia.
Qed.

Lemma output_is_whole_snapshots_witness :
  forallb encodable [Boundary 1; Update 1 0.5 0.5 0 0 0; Boundary 2] = true ∧
  run [Boundary 1; Update 1 0.5 0.5 0 0 0; Boundary 2] (init 0)
  = Some after_second_publish ∧
  ∃ k, (pd_client after_second_publish).*1 = mjoin (replicate k (seq 0 20)) ∧
       length (pd_client after_second_publish) = k * 20.
Proof.
  assert (forallb encodable [Boundary 1; Update 1 0.5 0.5 0 0 0; Boundary 2] = true)
    as Hevs by (vm_compute; reflexivity).
  assert (run [Boundary 1; Update 1 0.5 0.5 0 0 0; Boundary 2] (init 0)
          = Some after_second_publish) as Hrun by (vm_compute; reflexivity).
  split; [exact Hevs|]. split; [exact Hrun|].
  exact (output_is_whole_snapshots _ 0 after_second_publish Hevs Hrun).
Defined.

Lemma apply_event_last_send_time ev self self' :
  wf self → (0 <= send_interval self)%Q →
  apply_event ev self = Some self' →
  (last_send_time self <= last_send_time self')%Q.
Proof.
  intros Hwf Hint Hrun. destruct (is_boundary ev) eqn:Hev.
  - destruct ev as [| |t]; try done. simpl in Hrun. injection Hrun as <-.
    unfold after_boundary.
    destruct (Qle_bool _ _) eqn:Hle; [|lra].
    apply Qle_bool_iff in Hle. destruct (send_loop _ _ _); simpl; lra.
  - destruct (apply_event_no_boundary ev self self' Hwf Hev Hrun) as [_ ->]. lra.
Qed.

Lemma run_last_send_time evs self self' :
  wf self → (0 <= send_interval self)%Q →
  run evs self = Some self' →
  (last_send_time self <= last_send_time self')%Q.
Proof.
  revert self. induction evs as [|ev evs IH]; intros self Hwf Hint Hrun; simpl in Hrun.
  - injection Hrun as <-. lra.
  - destruct (apply_event_wf ev self Hwf) as (self1 & Hs1 & Hwf1).
    rewrite Hs1 in Hrun. simpl in Hrun.
    pose proof (apply_event_last_send_time ev self self1 Hwf Hint Hs1) as Hstep.
    destruct (apply_event_config ev self self1 Hwf Hs1) as [_ Hint1].
    rewrite <- Hint1 in Hint. pose proof (IH self1 Hwf1 Hint Hrun). lra.
Qed.

(** X14. The recorded publish time never moves backwards, whatever the clock
    readings of the frame boundaries are: along every stream of events from
    the initial state, a later state has a publish time at least that of an
    earlier one. *)
Theorem last_send_time_monotone evs1 evs2 now self1 self2 :
  run evs1 (init now) = Some self1 →
  run evs2 self1 = Some self2 →
  (now <= last_send_time self1)%Q ∧
  (last_send_time self1 <= last_send_time self2)%Q.
Proof.
  intros Hrun1 Hrun2.
  destruct (run_init_invariant evs1 now self1 Hrun1) as (Hwf1 & _).
  destruct (run_config evs1 (init now) self1 (wf_init_any now) Hrun1) as [_ Hint].
  split.
  - apply (run_last_send_time evs1 (init now) self1 (wf_init_any now)); [|done].
    simpl. lra.
  - apply (run_last_send_time evs2 self1 self2 Hwf1); [|done].
    rewrite Hint. simpl. lra.
Qed.

Lemma last_send_time_monotone_witness :
  run [Boundary 1; Update 1 0.5 0.5 0 0 0] (init 0) = Some before_second_publish ∧
  run [Boundary (1 # 2); Boundary 2] before_second_publish
  = Some after_second_publish ∧
  (0 <= last_send_time before_second_publish)%Q ∧
  (last_send_time before_second_publish <= last_send_time after_second_publish)%Q.
Proof.
  assert (run [Boundary 1; Update 1 0.5 0.5 0 0 0] (init 0)
          = Some before_second_publish) as H1 by (vm_compute; reflexivity).
  assert (run [Boundary (1 # 2); Boundary 2] before_second_publish
          = Some after_second_publish) as H2 by (vm_compute; reflexivity).
  split; [exact H1|]. split; [exact H2|].
  exact (last_send_time_monotone _ _ 0 _ _ H1 H2).
Defined.

(** X15. The rate limit: when a frame boundary read at [t1] publishes, and,
    after any updates and liveness announcements, the next frame boundary,
    read at [t2], publishes too, then [t2 - t1] is at least the interval. *)
Theorem publishes_are_spaced t1 t2 evs self self1 self2 self3 :
  wf self →
  frame_boundary t1 self = Some self1 →
  pd_client self1 ≠ pd_client self →
  forallb (λ ev, negb (is_boundary ev)) evs = true →
  run evs self1 = Some self2 →
  frame_boundary t2 self2 = Some self3 →
  pd_client self3 ≠ pd_client self2 →
  (send_interval self <= t2 - t1)%Q.
Proof.
  intros Hwf H1 Hsent1 Hevs Hrun H3 Hsent3.
  assert (wf self1) as Hwf1.
  { rewrite <- (frame_boundary_after t1 self self1 H1). by apply after_boundary_wf. }
  assert (last_send_time self1 = t1 ∧ send_interval self1 = send_interval self)
    as [Hlast1 Hint1].
  { unfold frame_boundary, send_to_puredata in H1.
    destruct (Qle_bool _ _); [|by injection H1 as <-].
    destruct (send_loop _ _ _); [|done]. by injection H1 as <-. }
  destruct (run_no_boundary evs self1 self2 Hwf1 Hevs Hrun) as [_ Hlast2].
  destruct (run_config evs self1 self2 Hwf1 Hrun) as [_ Hint2].
  unfold frame_boundary in H3.
  destruct (Qle_bool _ _) eqn:Hle; [|by injection H3 as <-].
  apply Qle_bool_iff in Hle. by rewrite Hint2, Hint1, Hlast2, Hlast1 in Hle.
Qed.

Lemma publishes_are_spaced_witness :
  wf (init 0) ∧
  frame_boundary 1 (init 0) = Some after_first_publish ∧
  pd_client after_first_publish ≠ pd_client (init 0) ∧
  forallb (λ ev, negb (is_boundary ev)) [Update 1 0.5 0.5 0 0 0] = true ∧
  run [Update 1 0.5 0.5 0 0 0] after_first_publish = Some before_second_publish ∧
  frame_boundary 2 before_second_publish = Some after_second_publish ∧
  pd_client after_second_publish ≠ pd_client before_second_publish ∧
  (send_interval (init 0) <= 2 - 1)%Q.
Proof.
  assert (wf (init 0)) as Hwf by by_compute.
  assert (frame_boundary 1 (init 0) = Some after_first_publish) as H1
    by (vm_compute; reflexivity).
  assert (pd_client after_first_publish ≠ pd_client (init 0)) as Hsent1
    by (vm_compute; discriminate).
  assert (forallb (λ ev, negb (is_boundary ev)) [Update 1 0.5 0.5 0 0 0] = true)
    as Hevs by reflexivity.
  assert (run [Update 1 0.5 0.5 0 0 0] after_first_publish
          = Some before_second_publish) as Hrun by (vm_compute; reflexivity).
  assert (frame_boundary 2 before_second_publish = Some after_second_publish)
    as H3 by (vm_compute; reflexivity).
  assert (pd_client after_second_publish ≠ pd_client before_second_publish)
    as Hsent3.
  { intros Heq. apply (f_equal length) in Heq. vm_compute in Heq. discriminate. }
  do 7 (split; [assumption|]).
  exact (publishes_are_spaced 1 2 _ _ _ _ _ Hwf H1 Hsent1 Hevs Hrun H3 Hsent3).
Defined.

(** ** Free slots and capacity *)

(** X16. While a slot is free no occupied slot is taken over: in a
    well-formed state that is not full, an update for an identifier without a
    binding binds it to a slot that was free. *)
Theorem free_slot_is_preferred session_id x y x_vel y_vel accel self :
  wf self →
  id_to_point self !! session_id = None →
  all_occupied self = false →
  ∃ self' i p, process_set session_id x y x_vel y_vel accel self = Some self' ∧
    id_to_point self' !! session_id = Some i ∧
    points self !! i = Some p ∧ is_free p = true ∧
    (∀ j, j < i → occupied self j).
Proof.
  intros Hwf Hid Hfull.
  destruct (process_set_cases session_id x y x_vel y_vel accel self Hwf)
    as [(i & Hid' & _)|[(i & _ & _ & (p & Hp & Hfree) & Hbelow & Heq)
       |(_ & Hfull' & _)]]; [congruence| |congruence].
  eexists. exists i, p. split; [exact Heq|]. simpl.
  split; [by rewrite lookup_insert_eq|]. by split.
Qed.

Lemma free_slot_is_preferred_witness :
  wf three_bound ∧
  id_to_point three_bound !! 8%Z = None ∧
  all_occupied three_bound = false ∧
  ∃ self' i p, process_set 8 0.5 0.5 0 0 0 three_bound = Some self' ∧
    id_to_point self' !! 8%Z = Some i ∧
    points three_bound !! i = Some p ∧ is_free p = true ∧
    (∀ j, j < i → occupied three_bound j).
Proof.
  assert (wf three_bound) as Hwf by by_compute.
  assert (id_to_point three_bound !! 8%Z = None) as Hid by reflexivity.
  assert (all_occupied three_bound = false) as Hfull by reflexivity.
  split; [exact Hwf|]. split; [exact Hid|]. split; [exact Hfull|].
  exact (free_slot_is_preferred 8 0.5 0.5 0 0 0 three_bound Hwf Hid Hfull).
Defined.

(** X17. Without overflow and without updates carrying [x == -1], never more
    than 20 identifiers are bound: in every such state reached from the
    initial one the binding map has at most 20 entries. *)
Theorem bound_identifiers_fit evs now self :
  no_overflow evs (init now) = true →
  forallb (λ ev, negb (carries_minus_one ev)) evs = true →
  run evs (init now) = Some self →
  size (id_to_point self) ≤ 20.
Proof.
  intros Hover Hx Hrun.
  destruct (run_bijection evs (init now) self (wf_init_any now)
              (init_bijection now) Hover Hx Hrun) as (Hocc & Hinj & _).
  destruct (run_init_invariant evs now self Hrun) as ((Hlen & _) & _).
  destruct (run_config evs (init now) self (wf_init_any now) Hrun) as [Hn _].
  simpl in Hn.
  rewrite <- length_map_to_list, <- (length_fmap snd).
  assert ((map_to_list (id_to_point self)).*2 ⊆+ seq 0 20) as Hsub;
    [|apply submseteq_length in Hsub; by rewrite length_seq in Hsub].
  apply NoDup_submseteq.
  - apply NoDup_fmap_2_strong; [|apply NoDup_map_to_list].
    intros [a i] [b j] Ha Hb Heq. simpl in Heq. subst j.
    apply elem_of_map_to_list in Ha, Hb. by rewrite (Hinj a b i Ha Hb).
  - intros i Hi. apply list_elem_of_fmap in Hi as ([a j] & -> & Ha).
    apply elem_of_map_to_list in Ha. change (j ∈ seq 0 20).
    destruct (Hocc a j Ha) as (p & Hp & _). apply lookup_lt_Some in Hp.
    apply elem_of_seq. lia.
Qed.

Lemma bound_identifiers_fit_witness :
  no_overflow fill_table (init 0) = true ∧
  forallb (λ ev, negb (carries_minus_one ev)) fill_table = true ∧
  run fill_table (init 0) = Some full_table ∧
  size (id_to_point full_table) ≤ 20.
Proof.
  assert (no_overflow fill_table (init 0) = true) as Hover
    by (vm_compute; reflexivity).
  assert (forallb (λ ev, negb (carries_minus_one ev)) fill_table = true) as Hx
    by (vm_compute; reflexivity).
  assert (run fill_table (init 0) = Some full_table) as Hrun
    by (vm_compute; reflexivity).
  split; [exact Hover|]. split; [exact Hx|]. split; [exact Hrun|].
  exact (bound_identifiers_fit fill_table 0 full_table Hover Hx Hrun).
Defined.

(** ** A send that raises *)




Example failed_send_sends_one_message :
  pd_client (after_boundary 1 unwritable_table) = [(0, record 0.5 0.5 0 0 0)].
Proof. vm_compute. reflexivity. Qed.
